(** * ChatUI (src/webllm.ts): the request chain, the generate and reset tasks,
      the message log and the device probe

    The class [ChatUI] is event driven: click handlers call [onGenerate],
    [onReset] and the download handler, which start [async] functions.  An
    [async] function runs until its first [await], hands a continuation to the
    awaited promise and returns; the continuation is run later by the job
    queue.  The development below keeps that structure:

    - promises live in a store; a promise is pending or settled and carries
      the reactions registered on it ([then], [await]);
    - settling a promise moves its reactions to the microtask queue;
    - every [await] of the source is a suspension point, and the code between
      two suspension points is one function of the state monad [proc];
    - the engine, the vector store and the markdown renderer are outside the
      program: their promises are settled by the environment. *)

From Stdlib Require Import ZArith Lia Permutation.
From stdpp Require Import base tactics option list strings pretty.

Set Default Proof Using "Type".
Local Open Scope Z_scope.
Local Open Scope nat_scope.

(** ** Values of the program *)

Abbreviation pid := nat.

Inductive role := user | assistant.

(** webllm.ChatCompletionMessageParam, as far as [chatHistory] uses it. *)
Record ChatMessage := { msg_role : role; content : string }.

(** webllm.CompletionUsage; the two throughput figures are kept as the text
    [toFixed(1)] produces. *)
Record CompletionUsage := {
  prompt_tokens : Z;
  completion_tokens : Z;
  prefill_tokens_per_s : string;
  decode_tokens_per_s : string }.

(** What a promise of the environment can be fulfilled with. *)
Inductive val :=
  | VUnit
  | VStr (s : string)
  | VChunk (delta : option string) (usage : option CompletionUsage)
  | VEnd
  | VProbe (maxStorageBufferBindingSize : Z) (gpuVendor : string).

(** A settled promise: fulfilled with a value or rejected with an error,
    kept as the text of [err.toString()]. *)
Inductive outcome := Ok (v : val) | Err (e : string).

(** The calls that leave the program. *)
Inductive ext_call :=
  | XCreateEngine                       (* webllm.CreateMLCEngine *)
  | XVectorStore                        (* MemoryVectorStore.fromDocuments *)
  | XProbe                              (* Promise.all([getMaxStorageBufferBindingSize(), getGPUVendor()]) *)
  | XCreate (messages : list ChatMessage) (* engine.chat.completions.create *)
  | XNext                               (* next chunk of the completion stream *)
  | XGetMessage                         (* engine.getMessage *)
  | XUnload                             (* engine.unload *)
  | XResetChat                          (* engine.resetChat *)
  | XParse (text : string)              (* marked.parse, then DOMPurify.sanitize *)
  | XTask.                              (* the body of a task that is not one of ChatUI's *)

(** The tasks given to [pushTask]: the two closures of [onGenerate] and
    [onReset], and any other async function, described by what the chain can
    see of it: it settles before its first suspension ([Some o]) or later. *)
Inductive task :=
  | TGenerate
  | TReset
  | TOther (sync : option outcome).

(** Suspension points of a task (the line of the [await] in webllm.ts). *)
Inductive tframe :=
  | GenCreate                                                (* 360 *)
  | GenNext (curMessage : string) (usage : option CompletionUsage) (* 373 *)
  | GenGetMessage                                            (* 390 *)
  | GenUnload                                                (* 396, 246 *)
  | ResetChat.                                               (* 240 *)

(** Suspension points of the calls nobody awaits. *)
Inductive dframe :=
  | AppendMessage (kind : string)                  (* 259 *)
  | AppendUser (elem : nat)                        (* 291 *)
  | UpdateLast (elem : nat) (keepText : bool)      (* 307 *)
  | InitCreate                                     (* 128 *)
  | InitStore                                      (* 142 *)
  | InitProbe.                                     (* 173 *)

Inductive reaction :=
  | RThen (n : nat) (t : task) (d : pid)  (* p.then(task): d is the promise then returns *)
  | RAdopt (d : pid)                      (* d was resolved with p and follows it *)
  | RTask (f : tframe) (self : pid)       (* await p in a task whose promise is self *)
  | RDetached (f : dframe).               (* await p in a call nobody awaits *)

Inductive job :=
  | JReact (r : reaction) (o : outcome)   (* PromiseReactionJob *)
  | JThenable (q d : pid).                (* NewPromiseResolveThenableJob: d resolved with q *)

Inductive pstate := Pending | Settled (o : outcome).

(** Labels are bookkeeping: [LChain n] is the value [chatRequestChain] has
    after n calls of [pushTask], [LTask n] the promise the n-th task
    returned. *)
Inductive plab := LChain (n : nat) | LTask (n : nat).

Record pcell := {
  pst : pstate;
  reactions : list reaction;
  plabel : option plab;
  pext : option ext_call }.

Inductive event :=
  | EvPush (n : nat) (t : task)
  | EvStart (n : nat)
  | EvSettle (n : nat) (o : outcome)
  | EvCall (p : pid) (c : ext_call)
  | EvInterrupt
  | EvTurn (m : ChatMessage)
  | EvRestrict (restrictModels : bool).

(** ** The page and the object *)

(** One block of the chat box: [<div class="msg kind-msg ..."> ...
    <div class="msg-text">html</div> ...]. *)
Record msg := { m_id : nat; m_kind : string; m_html : string }.

Record Dom := {
  uiChat : list msg;
  nextElem : nat;
  inputValue : string;
  inputPlaceholder : string;
  inputDisabled : bool;
  sendDisabled : bool;
  resetDisabled : bool;
  downloadDisabled : bool;
  downloadHidden : bool;
  progressHidden : bool;
  infoLabel : string }.

Record ChatUI := {
  chatLoaded : bool;
  requestInProgress : bool;
  chatHistory : list ChatMessage;
  chatRequestChain : pid;
  dom : Dom }.

Record Sys := {
  ui : ChatUI;
  store : list pcell;
  microtasks : list job;
  trace : list event;      (* newest first *)
  pushed : nat }.

Global Instance role_eq_dec : EqDecision role.
Proof. solve_decision. Defined.
Global Instance ChatMessage_eq_dec : EqDecision ChatMessage.
Proof. solve_decision. Defined.
Global Instance CompletionUsage_eq_dec : EqDecision CompletionUsage.
Proof. solve_decision. Defined.
Global Instance val_eq_dec : EqDecision val.
Proof. solve_decision. Defined.
Global Instance outcome_eq_dec : EqDecision outcome.
Proof. solve_decision. Defined.
Global Instance task_eq_dec : EqDecision task.
Proof. solve_decision. Defined.

(** ** Field updates *)

Definition set_uiChat (l : list msg) (d : Dom) : Dom :=
  {| uiChat := l; nextElem := nextElem d; inputValue := inputValue d;
     inputPlaceholder := inputPlaceholder d; inputDisabled := inputDisabled d;
     sendDisabled := sendDisabled d; resetDisabled := resetDisabled d;
     downloadDisabled := downloadDisabled d; downloadHidden := downloadHidden d;
     progressHidden := progressHidden d; infoLabel := infoLabel d |}.

Definition set_nextElem (n : nat) (d : Dom) : Dom :=
  {| uiChat := uiChat d; nextElem := n; inputValue := inputValue d;
     inputPlaceholder := inputPlaceholder d; inputDisabled := inputDisabled d;
     sendDisabled := sendDisabled d; resetDisabled := resetDisabled d;
     downloadDisabled := downloadDisabled d; downloadHidden := downloadHidden d;
     progressHidden := progressHidden d; infoLabel := infoLabel d |}.

Definition set_inputValue (v : string) (d : Dom) : Dom :=
  {| uiChat := uiChat d; nextElem := nextElem d; inputValue := v;
     inputPlaceholder := inputPlaceholder d; inputDisabled := inputDisabled d;
     sendDisabled := sendDisabled d; resetDisabled := resetDisabled d;
     downloadDisabled := downloadDisabled d; downloadHidden := downloadHidden d;
     progressHidden := progressHidden d; infoLabel := infoLabel d |}.

Definition set_inputPlaceholder (v : string) (d : Dom) : Dom :=
  {| uiChat := uiChat d; nextElem := nextElem d; inputValue := inputValue d;
     inputPlaceholder := v; inputDisabled := inputDisabled d;
     sendDisabled := sendDisabled d; resetDisabled := resetDisabled d;
     downloadDisabled := downloadDisabled d; downloadHidden := downloadHidden d;
     progressHidden := progressHidden d; infoLabel := infoLabel d |}.

Definition set_downloadDisabled (b : bool) (d : Dom) : Dom :=
  {| uiChat := uiChat d; nextElem := nextElem d; inputValue := inputValue d;
     inputPlaceholder := inputPlaceholder d; inputDisabled := inputDisabled d;
     sendDisabled := sendDisabled d; resetDisabled := resetDisabled d;
     downloadDisabled := b; downloadHidden := downloadHidden d;
     progressHidden := progressHidden d; infoLabel := infoLabel d |}.

Definition set_infoLabel (v : string) (d : Dom) : Dom :=
  {| uiChat := uiChat d; nextElem := nextElem d; inputValue := inputValue d;
     inputPlaceholder := inputPlaceholder d; inputDisabled := inputDisabled d;
     sendDisabled := sendDisabled d; resetDisabled := resetDisabled d;
     downloadDisabled := downloadDisabled d; downloadHidden := downloadHidden d;
     progressHidden := progressHidden d; infoLabel := v |}.

(** [showProgress]: the progress bar and the download button are shown in
    turn (class "hidden"). *)
Definition showProgress (show : bool) (d : Dom) : Dom :=
  {| uiChat := uiChat d; nextElem := nextElem d; inputValue := inputValue d;
     inputPlaceholder := inputPlaceholder d; inputDisabled := inputDisabled d;
     sendDisabled := sendDisabled d; resetDisabled := resetDisabled d;
     downloadDisabled := downloadDisabled d;
     downloadHidden := show; progressHidden := negb show;
     infoLabel := infoLabel d |}.

(** [enableChatInput]: the attribute "disabled" of the input field and of
    the send and reset buttons. *)
Definition enableChatInput (enable : bool) (d : Dom) : Dom :=
  {| uiChat := uiChat d; nextElem := nextElem d; inputValue := inputValue d;
     inputPlaceholder := inputPlaceholder d; inputDisabled := negb enable;
     sendDisabled := negb enable; resetDisabled := negb enable;
     downloadDisabled := downloadDisabled d; downloadHidden := downloadHidden d;
     progressHidden := progressHidden d; infoLabel := infoLabel d |}.

Definition set_dom (f : Dom → Dom) (u : ChatUI) : ChatUI :=
  {| chatLoaded := chatLoaded u; requestInProgress := requestInProgress u;
     chatHistory := chatHistory u; chatRequestChain := chatRequestChain u;
     dom := f (dom u) |}.

Definition set_chatLoaded (b : bool) (u : ChatUI) : ChatUI :=
  {| chatLoaded := b; requestInProgress := requestInProgress u;
     chatHistory := chatHistory u; chatRequestChain := chatRequestChain u;
     dom := dom u |}.

Definition set_requestInProgress (b : bool) (u : ChatUI) : ChatUI :=
  {| chatLoaded := chatLoaded u; requestInProgress := b;
     chatHistory := chatHistory u; chatRequestChain := chatRequestChain u;
     dom := dom u |}.

Definition set_chatHistory (h : list ChatMessage) (u : ChatUI) : ChatUI :=
  {| chatLoaded := chatLoaded u; requestInProgress := requestInProgress u;
     chatHistory := h; chatRequestChain := chatRequestChain u;
     dom := dom u |}.

Definition set_chatRequestChain (p : pid) (u : ChatUI) : ChatUI :=
  {| chatLoaded := chatLoaded u; requestInProgress := requestInProgress u;
     chatHistory := chatHistory u; chatRequestChain := p;
     dom := dom u |}.

Definition set_ui (f : ChatUI → ChatUI) (s : Sys) : Sys :=
  {| ui := f (ui s); store := store s; microtasks := microtasks s;
     trace := trace s; pushed := pushed s |}.

Definition set_store (f : list pcell → list pcell) (s : Sys) : Sys :=
  {| ui := ui s; store := f (store s); microtasks := microtasks s;
     trace := trace s; pushed := pushed s |}.

Definition set_microtasks (f : list job → list job) (s : Sys) : Sys :=
  {| ui := ui s; store := store s; microtasks := f (microtasks s);
     trace := trace s; pushed := pushed s |}.

Definition set_trace (f : list event → list event) (s : Sys) : Sys :=
  {| ui := ui s; store := store s; microtasks := microtasks s;
     trace := f (trace s); pushed := pushed s |}.

Definition set_pushed (n : nat) (s : Sys) : Sys :=
  {| ui := ui s; store := store s; microtasks := microtasks s;
     trace := trace s; pushed := n |}.

(** ** The state monad of the program *)

Definition proc (A : Type) : Type := Sys → A * Sys.

Definition ret {A} (a : A) : proc A := λ s, (a, s).

Definition bind {A B} (m : proc A) (k : A → proc B) : proc B :=
  λ s, let '(a, s') := m s in k a s'.

Declare Scope proc_scope.
Delimit Scope proc_scope with proc.
Bind Scope proc_scope with proc.
Notation "x <- m ;; k" := (bind m (λ x, k))
  (at level 100, m at next level, right associativity) : proc_scope.
Notation "m ;; k" := (bind m (λ _, k))
  (at level 100, right associativity) : proc_scope.
Local Open Scope proc_scope.

Definition exec {A} (m : proc A) (s : Sys) : Sys := (m s).2.

Definition get_ui : proc ChatUI := λ s, (ui s, s).
Definition modify_ui (f : ChatUI → ChatUI) : proc unit := λ s, (tt, set_ui f s).
Definition modify_dom (f : Dom → Dom) : proc unit := modify_ui (set_dom f).
Definition log (e : event) : proc unit := λ s, (tt, set_trace (cons e) s).
Definition enqueue (j : job) : proc unit :=
  λ s, (tt, set_microtasks (λ q, q ++ [j]) s).
Definition get_pushed : proc nat := λ s, (pushed s, s).
Definition put_pushed (n : nat) : proc unit := λ s, (tt, set_pushed n s).

(** ** Promises *)

Definition new_promise (l : option plab) (e : option ext_call) : proc pid :=
  λ s, (length (store s),
        set_store (λ st, st ++ [{| pst := Pending; reactions := [];
                                   plabel := l; pext := e |}]) s).

(** Settling a pending promise hands its reactions to the job queue; a
    settled promise stays as it is. *)
Definition settle (p : pid) (o : outcome) : proc unit := λ s,
  match store s !! p with
  | Some c =>
      match pst c with
      | Pending =>
          (tt,
           {| ui := ui s;
              store := <[p := {| pst := Settled o; reactions := [];
                                 plabel := plabel c; pext := pext c |}]> (store s);
              microtasks := microtasks s ++ ((λ r, JReact r o) <$> reactions c);
              trace := match plabel c with
                       | Some (LTask n) => EvSettle n o :: trace s
                       | _ => trace s
                       end;
              pushed := pushed s |})
      | Settled _ => (tt, s)
      end
  | None => (tt, s)
  end.

(** [then] and [await]: the reaction waits on a pending promise and becomes
    a job at once on a settled one. *)
Definition subscribe (p : pid) (r : reaction) : proc unit := λ s,
  match store s !! p with
  | Some c =>
      match pst c with
      | Pending =>
          (tt, set_store (λ st, <[p := {| pst := Pending;
                                          reactions := reactions c ++ [r];
                                          plabel := plabel c;
                                          pext := pext c |}]> st) s)
      | Settled o => enqueue (JReact r o) s
      end
  | None => (tt, s)
  end.

(** A call into the engine or a library returns a fresh pending promise. *)
Definition call (c : ext_call) : proc pid :=
  p <- new_promise None (Some c) ;;
  log (EvCall p c) ;;
  ret p.

(** [await c(...)]: the rest of the function, [r], waits for the promise. *)
Definition await (c : ext_call) (r : reaction) : proc unit :=
  e <- call c ;;
  subscribe e r.

(** ** The message log *)

Definition insert_block (kind html : string) (d : Dom) : Dom :=
  set_nextElem (S (nextElem d))
    (set_uiChat (uiChat d ++ [{| m_id := nextElem d; m_kind := kind;
                                 m_html := html |}]) d).

(** [getElementsByClassName(`msg ${kind}-msg`)], last match. *)
Definition last_of_kind (kind : string) (l : list msg) : option msg :=
  last (filter (λ m, m_kind m = kind) l).

(** A write to the text of block [elem]; a block that was removed from the
    chat box is no longer displayed and the write is lost. *)
Definition write_block (elem : nat) (f : string → string) (d : Dom) : Dom :=
  set_uiChat
    ((λ m, if decide (m_id m = elem)
           then {| m_id := m_id m; m_kind := m_kind m; m_html := f (m_html m) |}
           else m) <$> uiChat d) d.

(** [appendMessage], up to its [await marked.parse(text)]. *)
Definition appendMessage (kind text : string) : proc unit :=
  await (XParse text) (RDetached (AppendMessage kind)).

(** [appendUserMessage]: the empty block is inserted at once, its text after
    the [await]. *)
Definition appendUserMessage (text : string) : proc unit :=
  u <- get_ui ;;
  modify_dom (insert_block "primary" "") ;;
  await (XParse text) (RDetached (AppendUser (nextElem (dom u)))).

(** [updateLastMessage]: the block is looked up before the [await]; without
    a block of that kind the call throws, and since nobody awaits it the
    rejection is lost. *)
Definition updateLastMessage (kind text : string) (keepText : bool) : proc unit :=
  u <- get_ui ;;
  match last_of_kind kind (uiChat (dom u)) with
  | None => ret tt
  | Some m => await (XParse text) (RDetached (UpdateLast (m_id m) keepText))
  end.

Definition updateLastMessage_write (elem : nat) (keepText : bool) (parsed : string)
  : proc unit :=
  modify_dom (write_block elem (λ inner,
    let finalText := if keepText then inner +:+ parsed else parsed in
    if decide (inner = finalText) then inner else finalText)).

Definition clearTags : list string :=
  ["primary"; "secondary"; "warning"; "error"; "danger"; "info"].

Definition remove_kind (l : list msg) (tag : string) : list msg :=
  filter (λ m, m_kind m ≠ tag) l.

Definition resetChatHistory : proc unit :=
  modify_ui (set_chatHistory []) ;;
  modify_dom (λ d, set_uiChat (foldl remove_kind (uiChat d) clearTags) d) ;;
  modify_dom (set_infoLabel "") ;;
  appendMessage "info" "Chat assistant is ready".

(** ** The request chain *)

(** [pushTask]: [this.chatRequestChain = lastEvent.then(task)]; the task
    gets the next number. *)
Definition pushTask (t : task) : proc unit :=
  u <- get_ui ;;
  let lastEvent := chatRequestChain u in
  n <- get_pushed ;;
  log (EvPush n t) ;;
  d <- new_promise (Some (LChain (S n))) None ;;
  subscribe lastEvent (RThen n t d) ;;
  modify_ui (set_chatRequestChain d) ;;
  put_pushed (S n).

(** ** The generate task *)

Definition maxMessages : nat := 4.

(** [chatHistory.slice(-maxMessages)] *)
Definition slice_last (n : nat) (h : list ChatMessage) : list ChatMessage :=
  drop (length h - n) h.

Definition push_turn (m : ChatMessage) : proc unit :=
  log (EvTurn m) ;;
  modify_ui (λ u, set_chatHistory (chatHistory u ++ [m]) u).

Definition usage_label (u : CompletionUsage) : string :=
  "prompt: " +:+ pretty (prompt_tokens u) +:+ ", " +:+
  "completion: " +:+ pretty (completion_tokens u) +:+ ", " +:+ "<br/>" +:+
  "prefill: " +:+ prefill_tokens_per_s u +:+ " tks/s, " +:+
  "decoding: " +:+ decode_tokens_per_s u +:+ " tks/s".

(** Lines 398-399, then the task returns. *)
Definition asyncGenerate_finish (self : pid) : proc unit :=
  modify_dom (set_inputPlaceholder "Type a message...") ;;
  modify_ui (set_requestInProgress false) ;;
  settle self (Ok VUnit).

(** The catch block, up to [await this.engine.unload()] in [unloadEngine]. *)
Definition asyncGenerate_catch (self : pid) (err : string) : proc unit :=
  appendMessage "danger" ("Generate error, " +:+ err) ;;
  await XUnload (RTask GenUnload self).

(** [unloadEngine] after [await this.engine.unload()]. *)
Definition unloadEngine_done : proc unit :=
  modify_ui (set_chatLoaded false) ;;
  modify_dom (showProgress false) ;;
  modify_dom (enableChatInput false) ;;
  modify_dom (set_downloadDisabled false) ;;
  appendMessage "info" "Engine unloaded. You can download models again and retry.".

(** [asyncGenerate], up to [await this.engine.chat.completions.create]. *)
Definition asyncGenerate (self : pid) : proc unit :=
  modify_ui (set_requestInProgress true) ;;
  u <- get_ui ;;
  let prompt := inputValue (dom u) in
  if decide (prompt = "") then
    modify_ui (set_requestInProgress false) ;;
    settle self (Ok VUnit)
  else
    appendUserMessage prompt ;;
    modify_dom (set_inputValue "") ;;
    modify_dom (set_inputPlaceholder "Generating...") ;;
    appendMessage "secondary" "... thinking ..." ;;
    push_turn {| msg_role := user; content := prompt |} ;;
    modify_ui (λ u, if decide (maxMessages < length (chatHistory u))
                    then set_chatHistory (slice_last maxMessages (chatHistory u)) u
                    else u) ;;
    u' <- get_ui ;;
    await (XCreate (chatHistory u')) (RTask GenCreate self).

(** The continuations of a task. *)
Definition resume_task (f : tframe) (self : pid) (o : outcome) : proc unit :=
  match f, o with
  | GenCreate, Ok _ =>
      await XNext (RTask (GenNext "" None) self)
  | GenNext curMessage usage, Ok (VChunk delta u) =>
      let curMessage' :=
        match delta with
        | Some curDelta =>
            if decide (curDelta = "") then curMessage else curMessage +:+ curDelta
        | None => curMessage
        end in
      updateLastMessage "secondary" curMessage' false ;;
      await XNext (RTask (GenNext curMessage'
                            (match u with Some _ => u | None => usage end)) self)
  | GenNext curMessage usage, Ok VEnd =>
      match usage with
      | Some u => modify_dom (set_infoLabel (usage_label u))
      | None => ret tt
      end ;;
      await XGetMessage (RTask GenGetMessage self)
  | GenGetMessage, Ok (VStr finalMessage) =>
      updateLastMessage "secondary" finalMessage false ;;
      push_turn {| msg_role := assistant; content := finalMessage |} ;;
      asyncGenerate_finish self
  | (GenCreate | GenNext _ _ | GenGetMessage), Err err =>
      asyncGenerate_catch self err
  | (GenNext _ _ | GenGetMessage), Ok _ =>
      asyncGenerate_catch self "TypeError"
  | GenUnload, Ok _ =>
      unloadEngine_done ;;
      asyncGenerate_finish self
  | ResetChat, Ok _ =>
      resetChatHistory ;;
      settle self (Ok VUnit)
  | (GenUnload | ResetChat), Err err =>
      settle self (Err err)
  end.

(** Calling task number [n]: the promise its async function returns is [q]. *)
Definition start_task (n : nat) (t : task) : proc pid :=
  log (EvStart n) ;;
  match t with
  | TGenerate =>
      q <- new_promise (Some (LTask n)) None ;;
      asyncGenerate q ;;
      ret q
  | TReset =>
      q <- new_promise (Some (LTask n)) None ;;
      await XResetChat (RTask ResetChat q) ;;
      ret q
  | TOther (Some o) =>
      q <- new_promise (Some (LTask n)) None ;;
      settle q o ;;
      ret q
  | TOther None =>
      new_promise (Some (LTask n)) (Some XTask)
  end.

(** ** Event handlers *)

Definition onGenerate : proc unit :=
  u <- get_ui ;;
  if requestInProgress u then ret tt else pushTask TGenerate.

Definition onReset : proc unit :=
  u <- get_ui ;;
  (if requestInProgress u then log EvInterrupt else ret tt) ;;
  pushTask TReset.

Section WithLibraries.

(** [DOMPurify.sanitize(await marked.parse(text))], and the number of entries
    of products.json, which is not part of the sources. *)
Variable render : string → string.
Variable values_length : nat.

(** ** Loading *)

Definition androidMaxStorageBufferBindingSize : Z := Z.shiftl 1 27.
Definition mobileVendors : list string := ["qualcomm"; "arm"].

(** The condition of line 181. *)
Definition restricted (gpuVendor : string) (maxStorageBufferBindingSize : Z) : bool :=
  (negb (bool_decide (String.length gpuVendor = 0))
     && bool_decide (gpuVendor ∈ mobileVendors))
  || bool_decide (maxStorageBufferBindingSize ≤ androidMaxStorageBufferBindingSize)%Z.

Definition initChatUI_catch (err : string) : proc unit :=
  appendMessage "danger" err ;;
  modify_dom (set_downloadDisabled false) ;;
  modify_dom (showProgress false) ;;
  modify_ui (set_requestInProgress false) ;;
  modify_ui (set_chatLoaded false).

(** Lines 192-198; the value of the local [restrictModels] is recorded. *)
Definition initChatUI_ready (restrictModels : bool) : proc bool :=
  log (EvRestrict restrictModels) ;;
  updateLastMessage "info" "

Chat assistant is ready" true ;;
  updateLastMessage "warning" "

All models loaded and engine initialized." true ;;
  modify_dom (showProgress false) ;;
  modify_dom (enableChatInput true) ;;
  modify_ui (set_requestInProgress false) ;;
  modify_ui (set_chatLoaded true) ;;
  ret restrictModels.

(** Lines 167-191: the probe has answered or thrown. *)
Definition initChatUI_probe (o : outcome) : proc bool :=
  probed <-
     match o with
     | Ok (VProbe size vendor) => ret (size, vendor)
     | Ok _ => ret (0%Z, "")
     | Err err =>
         appendMessage "danger" ("Error reading GPU-vendor " +:+ err) ;;
         ret (0%Z, "")
     end ;;
  let maxStorageBufferBindingSize := probed.1 in
  let gpuVendor := probed.2 in
  restrictModels <-
    (if restricted gpuVendor maxStorageBufferBindingSize then
       updateLastMessage "info"
         "Your device seems to have limited resources, so we restrict the selectable models."
         true ;;
       ret true
     else ret false) ;;
  initChatUI_ready restrictModels.

Definition initChatUI : proc unit :=
  u <- get_ui ;;
  if chatLoaded u then ret tt
  else
    modify_ui (set_requestInProgress true) ;;
    await XCreateEngine (RDetached InitCreate).

(** The click handler of the download button. *)
Definition onDownload : proc unit :=
  modify_dom (set_downloadDisabled true) ;;
  modify_dom (showProgress true) ;;
  modify_dom (enableChatInput false) ;;
  appendMessage "warning" "Creating engine and downloading models..." ;;
  initChatUI.

(** The continuations of the calls nobody awaits. *)
Definition resume_detached (f : dframe) (o : outcome) : proc unit :=
  match f, o with
  | AppendMessage kind, Ok (VStr markdown) =>
      modify_dom (insert_block kind markdown)
  | AppendUser elem, Ok (VStr markdown) =>
      modify_dom (write_block elem (λ inner, inner +:+ markdown))
  | UpdateLast elem keepText, Ok (VStr parsed) =>
      updateLastMessage_write elem keepText parsed
  | (AppendMessage _ | AppendUser _ | UpdateLast _ _), _ => ret tt
  | InitCreate, Ok _ =>
      appendMessage "info" "Create vector store from product data. Standby..." ;;
      await XVectorStore (RDetached InitStore)
  | InitStore, Ok _ =>
      updateLastMessage "info"
        (" Vector store created. " +:+ pretty values_length +:+
         " JSON-documents added to the store.") false ;;
      await XProbe (RDetached InitProbe)
  | (InitCreate | InitStore), Err err => initChatUI_catch err
  | InitProbe, _ =>
      _ <- initChatUI_probe o ;; ret tt
  end.

(** ** The job queue and the environment *)

Definition run_job (j : job) : proc unit :=
  match j with
  | JReact (RThen n t d) (Ok _) =>
      q <- start_task n t ;;
      enqueue (JThenable q d)
  | JReact (RThen n t d) (Err e) => settle d (Err e)
  | JReact (RAdopt d) o => settle d o
  | JReact (RTask f self) o => resume_task f self o
  | JReact (RDetached f) o => resume_detached f o
  | JThenable q d => subscribe q (RAdopt d)
  end.

(** What the environment may settle a promise of a call with. *)
Definition ext_result (c : ext_call) (o : outcome) : option outcome :=
  match c, o with
  | XParse text, _ => Some (Ok (VStr (render text)))
  | _, Err _ => Some o
  | XNext, Ok (VChunk _ _) => Some o
  | XNext, Ok VEnd => Some o
  | XGetMessage, Ok (VStr _) => Some o
  | XProbe, Ok (VProbe _ _) => Some o
  | (XCreateEngine | XVectorStore | XCreate _ | XUnload | XResetChat | XTask),
    Ok VUnit => Some o
  | _, _ => None
  end.

Definition resolve (p : pid) (o : outcome) : proc unit := λ s,
  match store s !! p with
  | Some c =>
      match pext c with
      | Some x =>
          match ext_result x o with
          | Some o' => settle p o' s
          | None => (tt, s)
          end
      | None => (tt, s)
      end
  | None => (tt, s)
  end.

Inductive action :=
  | AType (text : string)          (* the user edits the input field *)
  | ASend                          (* send button, or Enter in the input field *)
  | AReset                         (* reset button *)
  | ADownload                      (* download button *)
  | APush (t : task)               (* pushTask called with another task *)
  | AMicro                         (* the job queue runs its first job *)
  | AExt (p : pid) (o : outcome).  (* the environment settles a promise *)

Definition step (a : action) (s : Sys) : Sys :=
  match a with
  | AType text => exec (modify_dom (set_inputValue text)) s
  | ASend => exec onGenerate s
  | AReset => exec onReset s
  | ADownload => exec onDownload s
  | APush t => exec (pushTask t) s
  | AMicro =>
      match microtasks s with
      | [] => s
      | j :: rest => exec (run_job j) (set_microtasks (λ _, rest) s)
      end
  | AExt p o => exec (resolve p o) s
  end.

Fixpoint run (l : list action) (s : Sys) : Sys :=
  match l with
  | [] => s
  | a :: l' => run l' (step a s)
  end.

(** [new ChatUI()] on a page [d]; [chatRequestChain = Promise.resolve()]. *)
Definition create (d : Dom) : Sys :=
  {| ui := {| chatLoaded := false; requestInProgress := false;
              chatHistory := []; chatRequestChain := 0; dom := d |};
     store := [{| pst := Settled (Ok VUnit); reactions := [];
                  plabel := Some (LChain 0); pext := None |}];
     microtasks := [];
     trace := [];
     pushed := 0 |}.

Definition empty_page : Dom :=
  {| uiChat := []; nextElem := 0; inputValue := ""; inputPlaceholder := "";
     inputDisabled := false; sendDisabled := false; resetDisabled := false;
     downloadDisabled := false; downloadHidden := false; progressHidden := true;
     infoLabel := "" |}.

End WithLibraries.

(** * Specification vocabulary *)

Definition has_lbl (s : Sys) (p : pid) (l : plab) : Prop :=
  ∃ c, store s !! p = Some c ∧ plabel c = Some l.

(** [q] is the promise of a task of ChatUI that has not returned yet. *)
Definition task_self (s : Sys) (q : pid) : Prop :=
  ∃ c n, store s !! q = Some c ∧ plabel c = Some (LTask n) ∧
         pst c = Pending ∧ pext c = None.

Definition fulfilled_ev (tr : list event) (n : nat) : Prop :=
  ∃ v, EvSettle n (Ok v) ∈ tr.

Definition react_ok (s : Sys) (c : pcell) (r : reaction) : Prop :=
  match r with
  | RThen n t d => plabel c = Some (LChain n) ∧ has_lbl s d (LChain (S n))
  | RAdopt d => ∃ n, plabel c = Some (LTask n) ∧ has_lbl s d (LChain (S n))
  | RTask f self => task_self s self
  | RDetached f => True
  end.

Definition job_ok (s : Sys) (j : job) : Prop :=
  match j with
  | JReact (RThen n t d) o =>
      has_lbl s d (LChain (S n)) ∧
      ∀ m v, n = S m → o = Ok v → fulfilled_ev (trace s) m
  | JReact (RAdopt d) o =>
      ∃ n, has_lbl s d (LChain (S n)) ∧
           ∀ v, o = Ok v → fulfilled_ev (trace s) n
  | JReact (RTask f self) o => task_self s self
  | JReact (RDetached f) o => True
  | JThenable q d => ∃ n, has_lbl s q (LTask n) ∧ has_lbl s d (LChain (S n))
  end.

(** Every start of task n+1 is preceded by the fulfilment of task n. *)
Fixpoint ordered (tr : list event) : Prop :=
  match tr with
  | [] => True
  | e :: tr' =>
      match e with
      | EvStart (S n) => fulfilled_ev tr' n
      | _ => True
      end ∧ ordered tr'
  end.

Definition job_reactions (j : job) : list reaction :=
  match j with JReact r _ => [r] | JThenable _ _ => [] end.

Definition all_reactions (s : Sys) : list reaction :=
  (store s ≫= reactions) ++ (microtasks s ≫= job_reactions).

Definition then_index (r : reaction) : list nat :=
  match r with RThen n _ _ => [n] | _ => [] end.

Definition start_index (e : event) : list nat :=
  match e with EvStart n => [n] | _ => [] end.

(** A task is waiting in a [then], or scheduled, or has been started. *)
Definition tokens (s : Sys) : list nat :=
  (all_reactions s ≫= then_index) ++ (trace s ≫= start_index).

Definition task_frame (r : reaction) : list (tframe * pid) :=
  match r with RTask f self => [(f, self)] | _ => [] end.

Definition task_frames (s : Sys) : list (tframe * pid) :=
  all_reactions s ≫= task_frame.

Record store_inv (N : nat) (s : Sys) : Prop := {
  inv_nodup : NoDup (tokens s);
  inv_bound : ∀ n, n ∈ tokens s → n < N;
  inv_cext : ∀ p c n, store s !! p = Some c → plabel c = Some (LChain n) →
             pext c = None;
  inv_cful : ∀ p c n v, store s !! p = Some c → plabel c = Some (LChain (S n)) →
             pst c = Settled (Ok v) → fulfilled_ev (trace s) n;
  inv_react : ∀ p c r, store s !! p = Some c → r ∈ reactions c → react_ok s c r;
  inv_jobs : ∀ j, j ∈ microtasks s → job_ok s j;
  inv_tstart : ∀ p c n, store s !! p = Some c → plabel c = Some (LTask n) →
               EvStart n ∈ trace s;
  inv_tuniq : ∀ p p' c c' n, store s !! p = Some c → store s !! p' = Some c' →
              plabel c = Some (LTask n) → plabel c' = Some (LTask n) → p = p';
  inv_tset : ∀ p c n o, store s !! p = Some c → plabel c = Some (LTask n) →
             pst c = Settled o → EvSettle n o ∈ trace s;
  inv_sett : ∀ n o, EvSettle n o ∈ trace s →
             ∃ p c, store s !! p = Some c ∧ plabel c = Some (LTask n) ∧
                    pst c = Settled o;
  inv_ord : ordered (trace s);
  inv_frames : length (task_frames s) ≤ 1 }.

(** [N] is the number of tasks pushed so far. *)
Definition chain_inv (s : Sys) : Prop :=
  store_inv (pushed s) s ∧
  has_lbl s (chatRequestChain (ui s)) (LChain (pushed s)).

Definition hoare {A} (P : Sys → Prop) (m : proc A) (Q : A → Sys → Prop) : Prop :=
  ∀ s, P s → Q (m s).1 (m s).2.

Definition settled_state (p : pid) (c : pcell) (o : outcome) (s : Sys) : Sys :=
  {| ui := ui s;
     store := <[p := {| pst := Settled o; reactions := [];
                        plabel := plabel c; pext := pext c |}]> (store s);
     microtasks := microtasks s ++ ((λ r, JReact r o) <$> reactions c);
     trace := match plabel c with
              | Some (LTask n) => EvSettle n o :: trace s
              | _ => trace s
              end;
     pushed := pushed s |}.

Definition subscribed_state (p : pid) (c : pcell) (r : reaction) (s : Sys) : Sys :=
  set_store (λ st, <[p := {| pst := Pending; reactions := reactions c ++ [r];
                             plabel := plabel c; pext := pext c |}]> st) s.

Definition grows (s s' : Sys) : Prop :=
  (∀ p l, has_lbl s p l → has_lbl s' p l) ∧
  (∀ e, e ∈ trace s → e ∈ trace s').

Definition alloc_ok (s : Sys) (l : option plab) (x : option ext_call) : Prop :=
  match l with
  | None => True
  | Some (LChain _) => x = None
  | Some (LTask n) =>
      EvStart n ∈ trace s ∧
      ∀ p c, store s !! p = Some c → plabel c ≠ Some (LTask n)
  end.

(** A reaction that may be added: its [then] index is new, and a task
    continuation is the only one. *)
Definition fresh_reaction (N : nat) (s : Sys) (r : reaction) : Prop :=
  (∀ n, n ∈ then_index r → (n ∉ tokens s) ∧ n < N) ∧
  (∀ fq, fq ∈ task_frame r → task_frames s = []).

Definition subscribe_ok (s : Sys) (p : pid) (r : reaction) : Prop :=
  ∀ c, store s !! p = Some c →
       (pst c = Pending → react_ok s c r) ∧
       (∀ o, pst c = Settled o → job_ok s (JReact r o)).

Definition settle_ok (s : Sys) (p : pid) (o : outcome) : Prop :=
  ∀ c, store s !! p = Some c → pst c = Pending →
       match plabel c with
       | Some (LChain (S n)) => ∀ v, o = Ok v → fulfilled_ev (trace s) n
       | Some (LTask n) => ∀ f, (f, p) ∉ task_frames s
       | _ => True
       end.

(** [s] comes after [s0]: labels and events stay, and neither the number of
    pushed tasks nor [chatRequestChain] has changed. *)
Definition stable (s0 s : Sys) : Prop :=
  grows s0 s ∧ pushed s = pushed s0 ∧
  chatRequestChain (ui s) = chatRequestChain (ui s0).

(** The assertion that holds inside a continuation: [oself] is the promise of
    the task that runs, if it is a task that runs. *)
Definition tb (N : nat) (s0 : Sys) (oself : option pid) (s : Sys) : Prop :=
  store_inv N s ∧ stable s0 s ∧
  match oself with
  | Some q => task_self s q ∧ task_frames s = []
  | None => True
  end.

Definition pres {A} (P : Sys → Prop) (m : proc A) : Prop := ∀ s, P s → P (exec m s).

(** The end of a continuation of a task: it suspends again or returns. *)
Definition fin (N : nat) (s0 s : Sys) : Prop := store_inv N s ∧ stable s0 s.

Definition ends {A} (P Q : Sys → Prop) (m : proc A) : Prop := ∀ s, P s → Q (exec m s).

Definition awaited (c : ext_call) (r : reaction) (s : Sys) : Sys :=
  {| ui := ui s;
     store := store s ++ [{| pst := Pending; reactions := [r];
                             plabel := None; pext := Some c |}];
     microtasks := microtasks s;
     trace := EvCall (length (store s)) c :: trace s;
     pushed := pushed s |}.

Definition pending_at (s : Sys) (q : pid) : Prop :=
  ∃ c, store s !! q = Some c ∧ pst c = Pending.


Definition rejected_at (s : Sys) (q : pid) (e : string) : Prop :=
  ∃ c, store s !! q = Some c ∧ pst c = Settled (Err e).



Definition turn_of (e : event) : list ChatMessage :=
  match e with EvTurn m => [m] | _ => [] end.

(** Every turn pushed so far, oldest first. *)
Definition turns (tr : list event) : list ChatMessage := reverse (tr ≫= turn_of).

(** The task is between the truncation of line 353 and the push of line 392. *)
Definition streaming (f : tframe) : bool :=
  match f with
  | GenCreate | GenNext _ _ | GenGetMessage => true
  | GenUnload | ResetChat => false
  end.

Definition is_create (c : ext_call) : bool :=
  match c with XCreate _ => true | _ => false end.

Record hist_inv (s : Sys) : Prop := {
  hist_suffix : chatHistory (ui s) `suffix_of` turns (trace s);
  hist_length : length (chatHistory (ui s)) ≤ 5;
  hist_sent : ∀ p h, EvCall p (XCreate h) ∈ trace s → length h ≤ maxMessages;
  hist_window : ∀ f q, (f, q) ∈ task_frames s → streaming f = true →
                length (chatHistory (ui s)) ≤ maxMessages }.

(** Inside a continuation: the history has at most [K] turns and the
    suspended tasks are among [F]. *)
Definition hb (K : nat) (F : list (tframe * pid)) (s : Sys) : Prop :=
  chatHistory (ui s) `suffix_of` turns (trace s) ∧
  length (chatHistory (ui s)) ≤ K ∧
  (∀ p h, EvCall p (XCreate h) ∈ trace s → length h ≤ maxMessages) ∧
  (∀ x, x ∈ task_frames s → x ∈ F).


(** A renderer that leaves its text as it is. *)
Definition plain (text : string) : string := text.

(** One generation: the prompt is sent, the task starts, the engine accepts
    the request ([base + 4]), the stream ends ([base + 5]) and [getMessage]
    gives the answer ([base + 6]); [base] is the number of promises made
    so far. *)
Definition generation (base : nat) (prompt answer : string) : list action :=
  [AType prompt; ASend; AMicro; AMicro;
   AExt (base + 4) (Ok VUnit); AMicro;
   AExt (base + 5) (Ok VEnd); AMicro;
   AExt (base + 6) (Ok (VStr answer)); AMicro; AMicro; AMicro].

Definition three_generations : list action :=
  generation 1 "a" "b" ++ generation 8 "c" "d" ++ generation 15 "e" "f".

(** A reset whose [engine.resetChat] fails, then a prompt is sent. *)
Definition failed_reset : list action :=
  [AReset; AMicro; AExt 3 (Err "reset failed"); AMicro; AMicro; AMicro;
   AType "hi"; ASend; AMicro].

(** Two tasks pushed directly; the first returns at once. *)
Definition two_tasks : list action :=
  [APush (TOther (Some (Ok VUnit))); APush (TOther None);
   AMicro; AMicro; AMicro; AMicro].


(** * Proofs *)

(** * Proofs *)

Local Open Scope proc_scope.

(** ** Hoare triples over [proc] *)

Lemma hoare_bind {A B} P Q R (m : proc A) (k : A → proc B) :
  hoare P m Q → (∀ a, hoare (Q a) (k a) R) → hoare P (bind m k) R.
Proof.
  intros Hm Hk s HP. unfold bind. specialize (Hm s HP).
  destruct (m s) as [a s']. apply Hk, Hm.
Qed.

Lemma hoare_ret {A} (P : Sys → Prop) (a : A) : hoare P (ret a) (λ _, P).
Proof. intros s HP. exact HP. Qed.

Lemma hoare_ret' {A} (Q : A → Sys → Prop) (a : A) : hoare (Q a) (ret a) Q.
Proof. intros s HP. exact HP. Qed.

Lemma hoare_conseq {A} (P P' : Sys → Prop) (Q Q' : A → Sys → Prop) (m : proc A) :
  hoare P' m Q' → (∀ s, P s → P' s) → (∀ a s, Q' a s → Q a s) → hoare P m Q.
Proof. intros Hm HP HQ s H. apply HQ, Hm, HP, H. Qed.

Lemma hoare_get_ui (P : Sys → Prop) : hoare P get_ui (λ u s, P s ∧ u = ui s).
Proof. intros s HP. split; [exact HP|reflexivity]. Qed.

Lemma exec_bind {A B} (m : proc A) (k : A → proc B) s :
  exec (bind m k) s = exec (k (m s).1) (exec m s).
Proof. unfold exec, bind. destruct (m s); reflexivity. Qed.

(** ** What the primitives do to the state *)

Lemma has_lbl_snoc s p l c0 :
  has_lbl s p l → has_lbl (set_store (λ st, st ++ [c0]) s) p l.
Proof.
  intros (c & Hc & Hl). exists c. split; [|done].
  simpl. apply lookup_app_l_Some, Hc.
Qed.

Lemma settle_cases p o s :
  (exec (settle p o) s = s ∧
   (store s !! p = None ∨ ∃ c o', store s !! p = Some c ∧ pst c = Settled o')) ∨
  (∃ c, store s !! p = Some c ∧ pst c = Pending ∧
     exec (settle p o) s =
       {| ui := ui s;
          store := <[p := {| pst := Settled o; reactions := [];
                             plabel := plabel c; pext := pext c |}]> (store s);
          microtasks := microtasks s ++ ((λ r, JReact r o) <$> reactions c);
          trace := match plabel c with
                   | Some (LTask n) => EvSettle n o :: trace s
                   | _ => trace s
                   end;
          pushed := pushed s |}).
Proof.
  unfold exec, settle. destruct (store s !! p) as [c|] eqn:Hc; [|left; eauto].
  destruct (pst c) eqn:Hp.
  - right. exists c. eauto.
  - left. split; [done|]. right. eauto.
Qed.

Lemma subscribe_cases p r s :
  (exec (subscribe p r) s = s ∧ store s !! p = None) ∨
  (∃ c o, store s !! p = Some c ∧ pst c = Settled o ∧
     exec (subscribe p r) s = set_microtasks (λ q, q ++ [JReact r o]) s) ∨
  (∃ c, store s !! p = Some c ∧ pst c = Pending ∧
     exec (subscribe p r) s =
       set_store (λ st, <[p := {| pst := Pending; reactions := reactions c ++ [r];
                                  plabel := plabel c; pext := pext c |}]> st) s).
Proof.
  unfold exec, subscribe. destruct (store s !! p) as [c|] eqn:Hc; [|left; eauto].
  destruct (pst c) eqn:Hp.
  - right; right. exists c. eauto.
  - right; left. exists c, o. eauto.
Qed.

(** ** Reactions under the primitives *)

Lemma bind_insert_perm {A B} (f : A → list B) (l : list A) i x y :
  l !! i = Some x →
  ∃ rest, l ≫= f ≡ₚ f x ++ rest ∧ <[i:=y]> l ≫= f ≡ₚ f y ++ rest.
Proof.
  intros Hi. exists ((take i l ≫= f) ++ (drop (S i) l ≫= f)). split.
  - rewrite <- (take_drop_middle l i x Hi) at 1.
    rewrite bind_app, bind_cons. by rewrite Permutation_app_swap_app.
  - rewrite insert_take_drop by (eapply lookup_lt_Some; eauto).
    rewrite bind_app, bind_cons. by rewrite Permutation_app_swap_app.
Qed.

Lemma job_reactions_fmap o (rs : list reaction) :
  ((λ r, JReact r o) <$> rs) ≫= job_reactions = rs.
Proof. induction rs as [|r rs IH]; [done|]. rewrite fmap_cons, bind_cons, IH. done. Qed.

Lemma all_reactions_settled p c o s :
  store s !! p = Some c →
  all_reactions (settled_state p c o s) ≡ₚ all_reactions s.
Proof.
  intros Hp. unfold all_reactions, settled_state; simpl.
  destruct (bind_insert_perm reactions (store s) p c
              {| pst := Settled o; reactions := []; plabel := plabel c; pext := pext c |} Hp)
    as (rest & H1 & H2).
  rewrite H1, H2, bind_app, job_reactions_fmap. simpl.
  solve_Permutation.
Qed.

Lemma all_reactions_subscribed p c r s :
  store s !! p = Some c →
  all_reactions (subscribed_state p c r s) ≡ₚ r :: all_reactions s.
Proof.
  intros Hp. unfold all_reactions, subscribed_state; simpl.
  destruct (bind_insert_perm reactions (store s) p c
              {| pst := Pending; reactions := reactions c ++ [r];
                 plabel := plabel c; pext := pext c |} Hp)
    as (rest & H1 & H2).
  rewrite H1, H2. simpl.
  solve_Permutation.
Qed.

Lemma all_reactions_enqueue j s :
  all_reactions (set_microtasks (λ q, q ++ [j]) s) ≡ₚ job_reactions j ++ all_reactions s.
Proof.
  unfold all_reactions; simpl. rewrite bind_app, bind_singleton.
  solve_Permutation.
Qed.

Lemma all_reactions_snoc c0 s :
  reactions c0 = [] →
  all_reactions (set_store (λ st, st ++ [c0]) s) = all_reactions s.
Proof.
  intros H0. unfold all_reactions; simpl.
  by rewrite bind_app, bind_singleton, H0, app_nil_r.
Qed.

Lemma tokens_perm s s' ev :
  all_reactions s' ≡ₚ all_reactions s →
  trace s' = ev ++ trace s →
  tokens s' ≡ₚ (ev ≫= start_index) ++ tokens s.
Proof.
  intros Hr Ht. unfold tokens. rewrite Hr, Ht, bind_app.
  solve_Permutation.
Qed.

(** ** Monotone facts *)

Lemma fulfilled_ev_mono tr tr' n :
  (∀ e, e ∈ tr → e ∈ tr') → fulfilled_ev tr n → fulfilled_ev tr' n.
Proof. intros H [v Hv]. exists v. auto. Qed.

Lemma react_ok_mono s s' c r :
  grows s s' →
  (∀ f q, r = RTask f q → task_self s q → task_self s' q) →
  react_ok s c r → react_ok s' c r.
Proof.
  intros [Hl Ht] Hq. destruct r as [n t d|d|f q|f]; simpl; [| |eauto|done].
  - intros [? ?]; eauto.
  - intros (n & ? & ?); eauto.
Qed.

Lemma job_ok_mono s s' j :
  grows s s' →
  (∀ f q o, j = JReact (RTask f q) o → task_self s q → task_self s' q) →
  job_ok s j → job_ok s' j.
Proof.
  intros [Hl Ht] Hq. destruct j as [[n t d|d|f q|f] o|q d]; simpl; [| |eauto|done|].
  - intros [? H]. split; [eauto|]. intros m v ? ?. eapply fulfilled_ev_mono; eauto.
  - intros (n & ? & H). exists n. split; [eauto|]. intros v ?.
    eapply fulfilled_ev_mono; eauto.
  - intros (n & ? & ?); eauto.
Qed.

Lemma ordered_cons e tr :
  ordered tr → (∀ n, e = EvStart (S n) → fulfilled_ev tr n) → ordered (e :: tr).
Proof.
  intros Ho He. simpl. split; [|done].
  destruct e as [| [|n] | | | | |]; auto.
Qed.

(** ** The invariant under the primitives *)

Lemma store_inv_ui N f s : store_inv N s → store_inv N (set_ui f s).
Proof. intros [H1 H2 H4 H5 H6 H7 H8 H9 H10 H11 H12 H13]. by constructor. Qed.

Lemma store_inv_weaken N N' s : N ≤ N' → store_inv N s → store_inv N' s.
Proof.
  intros ? [H1 H2 H4 H5 H6 H7 H8 H9 H10 H11 H12 H13]. constructor; try done.
  intros n Hn. specialize (H2 n Hn). lia.
Qed.

Lemma store_inv_pushed N n s : store_inv N s → store_inv N (set_pushed n s).
Proof. intros [H1 H2 H4 H5 H6 H7 H8 H9 H10 H11 H12 H13]. by constructor. Qed.

Lemma store_inv_log N e s :
  (∀ n, e ≠ EvStart n) → (∀ n o, e ≠ EvSettle n o) →
  store_inv N s → store_inv N (set_trace (cons e) s).
Proof.
  intros Hs He [H1 H2 H4 H5 H6 H7 H8 H9 H10 H11 H12 H13].
  assert (Hg : grows s (set_trace (cons e) s)).
  { split; [done|]. intros e' ?. simpl. by apply elem_of_cons; right. }
  assert (Htok : tokens (set_trace (cons e) s) = tokens s).
  { unfold tokens, all_reactions. cbn [store microtasks trace set_trace].
    rewrite bind_cons. destruct e; try done. by destruct (Hs n). }
  constructor; simpl.
  - by rewrite Htok.
  - intros n. rewrite Htok. apply H2.
  - done.
  - intros p c n v ? ? ?. eapply fulfilled_ev_mono; [apply Hg|]. eauto.
  - intros p c r ? ?. eapply react_ok_mono; eauto.
  - intros j ?. eapply job_ok_mono; eauto.
  - intros p c n ? ?. apply elem_of_cons; right. eauto.
  - done.
  - intros p c n o ? ? ?. apply elem_of_cons; right. eauto.
  - intros n o [Heq|?]%elem_of_cons; [by destruct (He n o)|]. eauto.
  - split; [|done]. destruct e as [| [|n] | | | | |]; try done. by destruct (Hs (S n)).
  - done.
Qed.

Lemma task_self_snoc s q c0 :
  task_self s q → task_self (set_store (λ st, st ++ [c0]) s) q.
Proof.
  intros (c & n & Hc & ?). exists c, n. split; [|done].
  simpl. by apply lookup_app_l_Some.
Qed.

Lemma grows_snoc s c0 : grows s (set_store (λ st, st ++ [c0]) s).
Proof. split; [intros p l; apply has_lbl_snoc|done]. Qed.

Lemma store_inv_alloc N l x s :
  alloc_ok s l x → store_inv N s → store_inv N (exec (new_promise l x) s).
Proof.
  intros Hok [H1 H2 H4 H5 H6 H7 H8 H9 H10 H11 H12 H13].
  unfold exec, new_promise. cbn [snd].
  set (c0 := {| pst := Pending; reactions := []; plabel := l; pext := x |}).
  assert (Hr : all_reactions (set_store (λ st, st ++ [c0]) s) = all_reactions s)
    by (by apply all_reactions_snoc).
  assert (Htok : tokens (set_store (λ st, st ++ [c0]) s) = tokens s)
    by (unfold tokens; by rewrite Hr).
  pose proof (grows_snoc s c0) as Hg.
  constructor.
  - by rewrite Htok.
  - intros n. rewrite Htok. apply H2.
  - intros p c n [[_ Hc]|[_ <-]]%lookup_snoc_Some Hl; [eauto|].
    simpl in Hl. subst l. exact Hok.
  - intros p c n v [[_ Hc]|[_ <-]]%lookup_snoc_Some Hl Hs; [eauto|done].
  - intros p c r [[_ Hc]|[_ <-]]%lookup_snoc_Some Hr'.
    + eapply react_ok_mono; eauto. intros; by apply task_self_snoc.
    + by apply elem_of_nil in Hr'.
  - intros j Hj. eapply job_ok_mono; eauto. intros; by apply task_self_snoc.
  - intros p c n [[_ Hc]|[_ <-]]%lookup_snoc_Some Hl; [eauto|].
    simpl in Hl. subst l. apply Hok.
  - intros p p' c c' n [[Hp Hc]|[Hp <-]]%lookup_snoc_Some
      [[Hp' Hc']|[Hp' <-]]%lookup_snoc_Some Hl Hl'.
    + eauto.
    + simpl in Hl'. subst l. destruct Hok as [_ Hno]. by destruct (Hno p c).
    + simpl in Hl. subst l. destruct Hok as [_ Hno]. by destruct (Hno p' c').
    + congruence.
  - intros p c n o [[_ Hc]|[_ <-]]%lookup_snoc_Some Hl Hs; [eauto|done].
  - intros n o Hn. destruct (H11 n o Hn) as (p & c & Hc & ?).
    exists p, c. split; [|done]. by apply lookup_app_l_Some.
  - done.
  - unfold task_frames. by rewrite Hr.
Qed.

Lemma store_inv_start N n s :
  store_inv N s → n ∉ tokens s → n < N →
  (∀ m, n = S m → fulfilled_ev (trace s) m) →
  store_inv N (exec (log (EvStart n)) s).
Proof.
  intros [H1 H2 H4 H5 H6 H7 H8 H9 H10 H11 H12 H13] Hn Hlt Hful.
  unfold exec, log. cbn [snd].
  assert (Hg : grows s (set_trace (cons (EvStart n)) s)).
  { split; [done|]. intros e' ?. simpl. by apply elem_of_cons; right. }
  assert (Htok : tokens (set_trace (cons (EvStart n)) s) ≡ₚ n :: tokens s).
  { unfold tokens, all_reactions. cbn [store microtasks trace set_trace].
    rewrite bind_cons. cbn [start_index]. symmetry. apply Permutation_middle. }
  constructor; simpl.
  - rewrite Htok. by apply NoDup_cons.
  - intros k. rewrite Htok. intros [->|?]%elem_of_cons; eauto.
  - done.
  - intros p c k v ? ? ?. eapply fulfilled_ev_mono; [apply Hg|]. eauto.
  - intros p c r ? ?. eapply react_ok_mono; eauto.
  - intros j ?. eapply job_ok_mono; eauto.
  - intros p c k ? ?. apply elem_of_cons; right. eauto.
  - done.
  - intros p c k o ? ? ?. apply elem_of_cons; right. eauto.
  - intros k o [Heq|?]%elem_of_cons; [done|]. eauto.
  - split; [|done]. destruct n as [|m]; [done|]. by apply Hful.
  - done.
Qed.

Lemma then_index_NoDup r : NoDup (then_index r).
Proof. destruct r; simpl; try apply NoDup_nil_2. apply NoDup_singleton. Qed.

Lemma task_frame_length r : length (task_frame r) ≤ 1.
Proof. destruct r; simpl; lia. Qed.

Lemma nodup_add_reaction N s r (l : list nat) :
  fresh_reaction N s r → NoDup (tokens s) → l ≡ₚ then_index r ++ tokens s → NoDup l.
Proof.
  intros [Hf _] Hnd Hl. rewrite Hl. apply NoDup_app. split; [apply then_index_NoDup|].
  split; [|done]. intros n Hn. by apply Hf.
Qed.

Lemma bound_add_reaction N s r (l : list nat) :
  fresh_reaction N s r → (∀ n, n ∈ tokens s → n < N) →
  l ≡ₚ then_index r ++ tokens s → ∀ n, n ∈ l → n < N.
Proof.
  intros [Hf _] Hb Hl n. rewrite Hl.
  intros [Hn|Hn]%elem_of_app; [by apply Hf|by apply Hb].
Qed.

Lemma frames_add_reaction N s r (l : list (tframe * pid)) :
  fresh_reaction N s r → length (task_frames s) ≤ 1 →
  l ≡ₚ task_frame r ++ task_frames s → length l ≤ 1.
Proof.
  intros [_ Hf] Hb Hl. rewrite Hl, length_app.
  destruct (task_frame r) as [|fq fr] eqn:Hr; [simpl; lia|].
  rewrite (Hf fq) by (try rewrite Hr; by left).
  pose proof (task_frame_length r) as Hlen. rewrite Hr in Hlen. simpl in *. lia.
Qed.

Lemma store_inv_enqueue_react N r o s :
  store_inv N s → job_ok s (JReact r o) → fresh_reaction N s r →
  store_inv N (exec (enqueue (JReact r o)) s).
Proof.
  intros [H1 H2 H4 H5 H6 H7 H8 H9 H10 H11 H12 H13] Hj Hf.
  unfold exec, enqueue. cbn [snd].
  set (s' := set_microtasks (λ q, q ++ [JReact r o]) s).
  assert (Hr : all_reactions s' ≡ₚ r :: all_reactions s)
    by apply (all_reactions_enqueue (JReact r o)).
  assert (Htok : tokens s' ≡ₚ then_index r ++ tokens s).
  { unfold tokens. rewrite Hr, bind_cons. cbn [trace s' set_microtasks].
    by rewrite (assoc (++)). }
  assert (Hg : grows s s') by done.
  constructor; try done.
  - by apply (nodup_add_reaction N s r).
  - by apply (bound_add_reaction N s r).
  - intros j [?|Hj'%list_elem_of_singleton]%elem_of_app; [by apply H7|by subst j].
  - apply (frames_add_reaction N s r); [done|done|].
    unfold task_frames. by rewrite Hr, bind_cons.
Qed.

Lemma store_inv_enqueue_thenable N q d s :
  store_inv N s → job_ok s (JThenable q d) →
  store_inv N (exec (enqueue (JThenable q d)) s).
Proof.
  intros [H1 H2 H4 H5 H6 H7 H8 H9 H10 H11 H12 H13] Hj.
  unfold exec, enqueue. cbn [snd].
  set (s' := set_microtasks (λ q0, q0 ++ [JThenable q d]) s).
  assert (Hr : all_reactions s' = all_reactions s).
  { unfold all_reactions; simpl. by rewrite bind_app, bind_singleton, app_nil_r. }
  assert (Htok : tokens s' = tokens s) by (unfold tokens; by rewrite Hr).
  constructor; try done.
  - by rewrite Htok.
  - intros n. rewrite Htok. apply H2.
  - intros j [?|Hj'%list_elem_of_singleton]%elem_of_app; [by apply H7|by subst j].
  - unfold task_frames. by rewrite Hr.
Qed.

(** A cell is replaced by one with the same label. *)
Lemma lookup_update (s s' : Sys) p c' x cx :
  store s' = <[p := c']> (store s) →
  store s' !! x = Some cx →
  (x = p ∧ cx = c') ∨ (x ≠ p ∧ store s !! x = Some cx).
Proof.
  intros Hst. rewrite Hst.
  intros [(Hx & Hc & _)|[? ?]]%list_lookup_insert_Some; [left|right]; auto.
Qed.

Lemma lookup_update_eq (s s' : Sys) p c c' :
  store s !! p = Some c → store s' = <[p := c']> (store s) →
  store s' !! p = Some c'.
Proof.
  intros Hp Hst. rewrite Hst. apply list_lookup_insert_eq. eapply lookup_lt_Some, Hp.
Qed.

Lemma lookup_update_ne (s s' : Sys) p c' x :
  store s' = <[p := c']> (store s) → x ≠ p → store s' !! x = store s !! x.
Proof. intros Hst ?. rewrite Hst. by apply list_lookup_insert_ne. Qed.

Lemma has_lbl_update (s s' : Sys) p c c' x l :
  store s !! p = Some c → store s' = <[p := c']> (store s) →
  plabel c' = plabel c →
  has_lbl s x l → has_lbl s' x l.
Proof.
  intros Hp Hst Hlab (cx & Hx & Hl). destruct (decide (x = p)) as [Heq|Hne]; [subst x|].
  - exists c'. split; [by apply (lookup_update_eq s s' p c c')|].
    congruence.
  - exists cx. split; [|done]. by rewrite (lookup_update_ne s s' p c').
Qed.

Lemma task_self_update (s s' : Sys) p c c' q :
  store s !! p = Some c → store s' = <[p := c']> (store s) →
  plabel c' = plabel c →
  q ≠ p ∨ (pst c' = Pending ∧ pext c' = pext c) →
  task_self s q → task_self s' q.
Proof.
  intros Hp Hst Hlab Hq (cq & n & Hcq & Hl & Hpend & Hext).
  destruct (decide (q = p)) as [Heq|Hne]; [subst q|].
  - destruct Hq as [?|[? ?]]; [done|].
    exists c', n. split; [by apply (lookup_update_eq s s' p c c')|].
    split_and!; congruence.
  - exists cq, n. split; [|done]. by rewrite (lookup_update_ne s s' p c').
Qed.

Lemma react_ok_label s c c' r :
  plabel c' = plabel c → react_ok s c r → react_ok s c' r.
Proof. intros Hl. destruct r; simpl; rewrite ?Hl; auto. Qed.

Lemma store_inv_subscribe N p r s :
  store_inv N s → subscribe_ok s p r → fresh_reaction N s r →
  store_inv N (exec (subscribe p r) s).
Proof.
  intros Hinv Hok Hf.
  destruct (subscribe_cases p r s) as [[-> _]|[(c & o & Hc & Hs & ->)|(c & Hc & Hs & ->)]].
  - done.
  - apply (store_inv_enqueue_react N r o s); [done| |done]. by apply (Hok c).
  - destruct Hinv as [H1 H2 H4 H5 H6 H7 H8 H9 H10 H11 H12 H13].
    set (c' := {| pst := Pending; reactions := reactions c ++ [r];
                  plabel := plabel c; pext := pext c |}).
    set (s' := set_store (λ st : list pcell, <[p:=c']> st) s).
    assert (Hst : store s' = <[p := c']> (store s)) by done.
    assert (Hlab : plabel c' = plabel c) by done.
    assert (Hr : all_reactions s' ≡ₚ r :: all_reactions s)
      by (by apply all_reactions_subscribed).
    assert (Htok : tokens s' ≡ₚ then_index r ++ tokens s).
    { unfold tokens. rewrite Hr, bind_cons. cbn [trace s' set_store].
      by rewrite (assoc (++)). }
    assert (Hg : grows s s').
    { split; [|done]. intros x l. by apply (has_lbl_update s s' p c c'). }
    assert (Hts : ∀ q, task_self s q → task_self s' q).
    { intros q. apply (task_self_update s s' p c c'); auto. }
    constructor.
    + by apply (nodup_add_reaction N s r).
    + by apply (bound_add_reaction N s r).
    + intros x cx n Hx Hl.
      destruct (lookup_update s s' p c' x cx Hst Hx) as [[-> ->]|[_ Hx']];
        [exact (H4 p c n Hc Hl)|eauto].
    + intros x cx n v Hx Hl Hsx.
      destruct (lookup_update s s' p c' x cx Hst Hx) as [[-> ->]|[_ Hx']]; [done|].
      eauto.
    + intros x cx r' Hx Hr'.
      destruct (lookup_update s s' p c' x cx Hst Hx) as [[-> ->]|[_ Hx']].
      * apply (react_ok_label s' c); [done|].
        simpl in Hr'. apply elem_of_app in Hr' as [Hr'|Hr'%list_elem_of_singleton].
        -- eapply react_ok_mono; eauto.
        -- subst r'. eapply react_ok_mono; eauto. by apply (Hok c).
      * eapply react_ok_mono; eauto.
    + intros j Hj. eapply job_ok_mono; eauto.
    + intros x cx n Hx Hl.
      destruct (lookup_update s s' p c' x cx Hst Hx) as [[-> ->]|[_ Hx']];
        [exact (H8 p c n Hc Hl)|eauto].
    + intros x x' cx cx' n Hx Hx' Hl Hl'.
      destruct (lookup_update s s' p c' x cx Hst Hx) as [[-> ->]|[_ Hx1]];
      destruct (lookup_update s s' p c' x' cx' Hst Hx') as [[-> ->]|[_ Hx2]].
      * done.
      * exact (H9 p x' c cx' n Hc Hx2 Hl Hl').
      * exact (H9 x p cx c n Hx1 Hc Hl Hl').
      * eauto.
    + intros x cx n o Hx Hl Hsx.
      destruct (lookup_update s s' p c' x cx Hst Hx) as [[-> ->]|[_ Hx']]; [done|].
      eauto.
    + intros n o Hn. destruct (H11 n o Hn) as (x & cx & Hx & Hl & Hsx).
      exists x, cx. split; [|done]. rewrite (lookup_update_ne s s' p c'); [done|done|].
      intros ->. congruence.
    + done.
    + apply (frames_add_reaction N s r); [done|done|].
      unfold task_frames. by rewrite Hr, bind_cons.
Qed.

Lemma task_frames_react s p c f q :
  store s !! p = Some c → RTask f q ∈ reactions c → (f, q) ∈ task_frames s.
Proof.
  intros Hc Hr. unfold task_frames, all_reactions.
  apply list_elem_of_bind. exists (RTask f q). split; [by left|].
  apply elem_of_app; left. apply list_elem_of_bind. exists c. split; [done|].
  apply list_elem_of_lookup. eauto.
Qed.

Lemma task_frames_job s f q o :
  JReact (RTask f q) o ∈ microtasks s → (f, q) ∈ task_frames s.
Proof.
  intros Hj. unfold task_frames, all_reactions.
  apply list_elem_of_bind. exists (RTask f q). split; [by left|].
  apply elem_of_app; right. apply list_elem_of_bind.
  exists (JReact (RTask f q) o). split; [by left|done].
Qed.

Lemma store_inv_settle N p o s :
  store_inv N s → settle_ok s p o → store_inv N (exec (settle p o) s).
Proof.
  intros Hinv Hok.
  destruct (settle_cases p o s) as [[-> _]|(c & Hc & Hs & ->)]; [done|].
  specialize (Hok c Hc Hs).
  destruct Hinv as [H1 H2 H4 H5 H6 H7 H8 H9 H10 H11 H12 H13].
  fold (settled_state p c o s).
  set (c' := {| pst := Settled o; reactions := []; plabel := plabel c; pext := pext c |}).
  set (s' := settled_state p c o s).
  assert (Hst : store s' = <[p := c']> (store s)) by done.
  assert (Hlab : plabel c' = plabel c) by done.
  assert (Hr : all_reactions s' ≡ₚ all_reactions s)
    by (by apply all_reactions_settled).
  assert (Htr : ∀ e, e ∈ trace s → e ∈ trace s').
  { intros e He. unfold s', settled_state; simpl.
    destruct (plabel c) as [[?|?]|]; [done| |done]. by apply elem_of_cons; right. }
  assert (Htok : tokens s' ≡ₚ tokens s).
  { unfold tokens. rewrite Hr. f_equiv. unfold s', settled_state; simpl.
    by destruct (plabel c) as [[?|?]|]. }
  assert (Hg : grows s s').
  { split; [|done]. intros x l. by apply (has_lbl_update s s' p c c'). }
  assert (Hts : ∀ f q, (f, q) ∈ task_frames s → task_self s q → task_self s' q).
  { intros f q Hfq Hq. apply (task_self_update s s' p c c' q); try done.
    left. intros ->. destruct Hq as (cq & n & Hcq & Hl & _).
    assert (cq = c) as -> by congruence. rewrite Hl in Hok. by destruct (Hok f). }
  constructor.
  - by rewrite Htok.
  - intros n. rewrite Htok. apply H2.
  - intros x cx n Hx Hl.
    destruct (lookup_update s s' p c' x cx Hst Hx) as [[-> ->]|[_ Hx']];
      [exact (H4 p c n Hc Hl)|eauto].
  - intros x cx n v Hx Hl Hsx.
    destruct (lookup_update s s' p c' x cx Hst Hx) as [[-> ->]|[_ Hx']].
    + simpl in Hl, Hsx. rewrite Hl in Hok. injection Hsx as ->.
      eapply fulfilled_ev_mono; eauto.
    + eapply fulfilled_ev_mono; eauto.
  - intros x cx r Hx Hr'.
    destruct (lookup_update s s' p c' x cx Hst Hx) as [[-> ->]|[_ Hx']].
    + by apply elem_of_nil in Hr'.
    + eapply react_ok_mono; eauto. intros f q -> Hq.
      eapply Hts; eauto using task_frames_react.
  - intros j [Hj|Hj]%elem_of_app.
    + eapply job_ok_mono; eauto. intros f q o' -> Hq.
      eapply Hts; eauto using task_frames_job.
    + apply list_elem_of_fmap in Hj as (r & -> & Hr').
      pose proof (H6 p c r Hc Hr') as Hrok.
      destruct r as [n t d|d|f q|f]; simpl in *.
      * destruct Hrok as [Hl Hd]. split; [by apply Hg|].
        intros m v -> ->. rewrite Hl in Hok. eapply fulfilled_ev_mono; eauto.
      * destruct Hrok as (n & Hl & Hd). exists n. split; [by apply Hg|].
        intros v ->. exists v. unfold s', settled_state; simpl. rewrite Hl. by left.
      * eapply Hts; eauto using task_frames_react.
      * done.
  - intros x cx n Hx Hl. apply Htr.
    destruct (lookup_update s s' p c' x cx Hst Hx) as [[-> ->]|[_ Hx']];
      [exact (H8 p c n Hc Hl)|eauto].
  - intros x x' cx cx' n Hx Hx' Hl Hl'.
    destruct (lookup_update s s' p c' x cx Hst Hx) as [[-> ->]|[_ Hx1]];
    destruct (lookup_update s s' p c' x' cx' Hst Hx') as [[-> ->]|[_ Hx2]].
    + done.
    + exact (H9 p x' c cx' n Hc Hx2 Hl Hl').
    + exact (H9 x p cx c n Hx1 Hc Hl Hl').
    + eauto.
  - intros x cx n o' Hx Hl Hsx.
    destruct (lookup_update s s' p c' x cx Hst Hx) as [[-> ->]|[_ Hx']].
    + simpl in Hl, Hsx. injection Hsx as ->.
      unfold s', settled_state; simpl. rewrite Hl. by left.
    + apply Htr. eauto.
  - intros n o' Hn.
    assert (Hcase : (plabel c = Some (LTask n) ∧ o' = o) ∨ EvSettle n o' ∈ trace s).
    { unfold s', settled_state in Hn; simpl in Hn.
      destruct (plabel c) as [[?|k]|]; [by right| |by right].
      apply elem_of_cons in Hn as [Heq|?]; [|by right].
      injection Heq as -> ->. by left. }
    destruct Hcase as [[Hl ->]|Hold].
    + exists p, c'. split; [by apply (lookup_update_eq s s' p c c')|done].
    + destruct (H11 n o' Hold) as (x & cx & Hx & Hl & Hsx).
      exists x, cx. split; [|done]. rewrite (lookup_update_ne s s' p c'); [done|done|].
      intros ->. congruence.
  - unfold s', settled_state; simpl.
    destruct (plabel c) as [[?|?]|]; [done| |done]. by apply ordered_cons.
  - unfold task_frames. by rewrite Hr.
Qed.

(** ** Code between two suspension points *)

Lemma grows_refl s : grows s s.
Proof. by split. Qed.

Lemma grows_trans s1 s2 s3 : grows s1 s2 → grows s2 s3 → grows s1 s3.
Proof. intros [? ?] [? ?]. split; eauto. Qed.

Lemma stable_refl s : stable s s.
Proof. split; [apply grows_refl|done]. Qed.

Lemma stable_trans s1 s2 s3 : stable s1 s2 → stable s2 s3 → stable s1 s3.
Proof.
  intros (? & ? & ?) (? & ? & ?). split; [by eapply grows_trans|]. split; congruence.
Qed.

Lemma stable_log e s : stable s (exec (log e) s).
Proof.
  split; [|done]. split; [done|]. intros e' ?. simpl. by apply elem_of_cons; right.
Qed.

Lemma stable_modify_ui f s :
  (∀ u, chatRequestChain (f u) = chatRequestChain u) →
  stable s (exec (modify_ui f) s).
Proof. intros Hf. split; [done|]. split; [done|]. simpl. apply Hf. Qed.

Lemma stable_new_promise l x s : stable s (exec (new_promise l x) s).
Proof. split; [apply grows_snoc|done]. Qed.

Lemma stable_enqueue j s : stable s (exec (enqueue j) s).
Proof. by split. Qed.

Lemma stable_subscribe p r s : stable s (exec (subscribe p r) s).
Proof.
  destruct (subscribe_cases p r s) as [[-> _]|[(c & o & Hc & Hs & ->)|(c & Hc & Hs & ->)]].
  - apply stable_refl.
  - by split.
  - split; [|done]. split; [|done]. intros x l.
    by apply (has_lbl_update _ _ p c
      {| pst := Pending; reactions := reactions c ++ [r];
         plabel := plabel c; pext := pext c |}).
Qed.

Lemma stable_settle p o s : stable s (exec (settle p o) s).
Proof.
  destruct (settle_cases p o s) as [[-> _]|(c & Hc & Hs & ->)]; [apply stable_refl|].
  split; [|done]. split.
  - intros x l.
    by apply (has_lbl_update _ _ p c
      {| pst := Settled o; reactions := []; plabel := plabel c; pext := pext c |}).
  - intros e He. simpl. destruct (plabel c) as [[?|?]|]; [done| |done].
    by apply elem_of_cons; right.
Qed.

Lemma task_self_subscribe p r s q :
  task_self s q → task_self (exec (subscribe p r) s) q.
Proof.
  destruct (subscribe_cases p r s) as [[-> _]|[(c & o & Hc & Hs & ->)|(c & Hc & Hs & ->)]];
    [done|done|].
  apply (task_self_update _ _ p c
    {| pst := Pending; reactions := reactions c ++ [r];
       plabel := plabel c; pext := pext c |}); auto.
Qed.

Lemma task_frames_subscribe p r s :
  task_frame r = [] → task_frames (exec (subscribe p r) s) ≡ₚ task_frames s.
Proof.
  intros Hr. unfold task_frames.
  destruct (subscribe_cases p r s) as [[-> _]|[(c & o & Hc & Hs & ->)|(c & Hc & Hs & ->)]].
  - done.
  - rewrite (all_reactions_enqueue (JReact r o)). simpl. by rewrite Hr.
  - fold (subscribed_state p c r s). rewrite all_reactions_subscribed by done.
    rewrite bind_cons. by rewrite Hr.
Qed.

Lemma pres_bind {A B} P (m : proc A) (k : A → proc B) :
  pres P m → (∀ a, pres P (k a)) → pres P (bind m k).
Proof. intros Hm Hk s HP. rewrite exec_bind. apply Hk, Hm, HP. Qed.

Lemma pres_ret {A} P (a : A) : pres P (ret a).
Proof. by intros s HP. Qed.

Lemma pres_get_ui P : pres P get_ui.
Proof. by intros s HP. Qed.

Lemma tb_step N s0 o s s' :
  tb N s0 o s → store_inv N s' → stable s s' →
  (∀ q, task_self s q → task_self s' q) →
  task_frames s' ≡ₚ task_frames s →
  tb N s0 o s'.
Proof.
  intros (Hi & Hst & Ho) Hi' Hst' Hq Hf. split; [done|].
  split; [by eapply stable_trans|].
  destruct o as [q|]; [|done]. destruct Ho as [Hs Hfr]. split; [auto|].
  rewrite Hfr in Hf. by apply Permutation_nil.
Qed.

Lemma tb_log N s0 o e :
  (∀ n, e ≠ EvStart n) → (∀ n o, e ≠ EvSettle n o) →
  pres (tb N s0 o) (log e).
Proof.
  intros H1 H2 s Htb. eapply tb_step; eauto using stable_log.
  apply store_inv_log; auto. apply Htb.
Qed.

Lemma tb_modify_ui N s0 o f :
  (∀ u, chatRequestChain (f u) = chatRequestChain u) →
  pres (tb N s0 o) (modify_ui f).
Proof.
  intros Hf s Htb. eapply tb_step; eauto using stable_modify_ui.
  apply store_inv_ui, Htb.
Qed.

Lemma tb_modify_dom N s0 o f : pres (tb N s0 o) (modify_dom f).
Proof. by apply tb_modify_ui. Qed.

Lemma tb_call N s0 o c : pres (tb N s0 o) (call c).
Proof.
  unfold call. apply pres_bind; [|intros p; apply pres_bind; [|intros; apply pres_ret]].
  - intros s Htb. eapply tb_step; eauto using stable_new_promise.
    + apply store_inv_alloc; [done|apply Htb].
    + intros q. apply task_self_snoc.
    + unfold task_frames, exec, new_promise. cbn [snd].
      by rewrite all_reactions_snoc.
  - by apply tb_log.
Qed.

Lemma tb_subscribe_detached N s0 o p f :
  pres (tb N s0 o) (subscribe p (RDetached f)).
Proof.
  intros s Htb. eapply tb_step; eauto using stable_subscribe.
  - apply store_inv_subscribe; [apply Htb| |].
    + by intros c Hc.
    + split; [intros n Hn|intros fq Hn]; by apply elem_of_nil in Hn.
  - intros q. apply task_self_subscribe.
  - by apply task_frames_subscribe.
Qed.

Lemma tb_await_detached N s0 o c f :
  pres (tb N s0 o) (await c (RDetached f)).
Proof. unfold await. apply pres_bind; [apply tb_call|intros e; apply tb_subscribe_detached]. Qed.

Ltac tb_side :=
  first [ intros ?; discriminate
        | intros ? ?; discriminate
        | intros ?; reflexivity
        | intros ?; case_decide; reflexivity ].

(** The tactics look at the head of the procedure only, so that no
    definition is unfolded to find out which lemma applies. *)
Ltac tb_benign :=
  repeat lazymatch goal with
  | |- pres _ (ret _) => apply pres_ret
  | |- pres _ get_ui => apply pres_get_ui
  | |- pres _ (await _ (RDetached _)) => apply tb_await_detached
  | |- pres _ (modify_dom _) => apply tb_modify_dom
  | |- pres _ (modify_ui _) => apply tb_modify_ui; tb_side
  | |- pres _ (log _) => apply tb_log; tb_side
  | |- pres _ (bind _ _) => apply pres_bind; [|intros ?]
  | |- pres _ (appendMessage _ _) => unfold appendMessage
  | |- pres _ (appendUserMessage _) => unfold appendUserMessage
  | |- pres _ (updateLastMessage _ _ _) => unfold updateLastMessage
  | |- pres _ (updateLastMessage_write _ _ _) => unfold updateLastMessage_write
  | |- pres _ (push_turn _) => unfold push_turn
  | |- pres _ resetChatHistory => unfold resetChatHistory
  | |- pres _ unloadEngine_done => unfold unloadEngine_done
  | |- pres _ (match ?x with _ => _ end) => destruct x
  end.

Lemma tb_appendMessage N s0 o kind text : pres (tb N s0 o) (appendMessage kind text).
Proof. unfold appendMessage. tb_benign. Qed.

Lemma tb_appendUserMessage N s0 o text : pres (tb N s0 o) (appendUserMessage text).
Proof. unfold appendUserMessage. tb_benign. Qed.

Lemma tb_updateLastMessage N s0 o kind text keep :
  pres (tb N s0 o) (updateLastMessage kind text keep).
Proof. unfold updateLastMessage. tb_benign. Qed.

Lemma tb_push_turn N s0 o m : pres (tb N s0 o) (push_turn m).
Proof. unfold push_turn. tb_benign. Qed.

Lemma tb_resetChatHistory N s0 o : pres (tb N s0 o) resetChatHistory.
Proof. unfold resetChatHistory. tb_benign. Qed.

Lemma tb_unloadEngine_done N s0 o : pres (tb N s0 o) unloadEngine_done.
Proof. unfold unloadEngine_done. tb_benign. Qed.

Lemma ends_bind {A B} P Q (m : proc A) (k : A → proc B) :
  pres P m → (∀ a, ends P Q (k a)) → ends P Q (bind m k).
Proof. intros Hm Hk s HP. rewrite exec_bind. apply Hk, Hm, HP. Qed.

Lemma ends_pres {A} N s0 o (m : proc A) :
  pres (tb N s0 o) m → ends (tb N s0 o) (fin N s0) m.
Proof. intros Hm s HP. destruct (Hm s HP) as (? & ? & _). by split. Qed.

Lemma fin_await_task N s0 q x f :
  ends (tb N s0 (Some q)) (fin N s0) (await x (RTask f q)).
Proof.
  unfold await. apply ends_bind; [apply tb_call|intros e].
  intros s (Hi & Hst & Hq & Hfr). split.
  - apply store_inv_subscribe; [done| |].
    + by intros c Hc.
    + split; [intros n Hn; by apply elem_of_nil in Hn|done].
  - eapply stable_trans; eauto using stable_subscribe.
Qed.

Lemma fin_settle_self N s0 q o :
  ends (tb N s0 (Some q)) (fin N s0) (settle q o).
Proof.
  intros s (Hi & Hst & Hq & Hfr). split.
  - apply store_inv_settle; [done|]. intros c Hc Hp.
    destruct Hq as (c' & n & Hc' & Hl & _). assert (c' = c) as -> by congruence.
    rewrite Hl. intros f. rewrite Hfr. apply not_elem_of_nil.
  - eapply stable_trans; eauto using stable_settle.
Qed.

Ltac tb_ends :=
  repeat lazymatch goal with
  | |- ends _ _ (await _ (RTask _ _)) => apply fin_await_task
  | |- ends _ _ (settle _ _) => apply fin_settle_self
  | |- ends _ _ (bind _ _) => apply ends_bind; [solve [tb_benign]|intros ?]
  | |- ends _ _ (asyncGenerate_finish _) => unfold asyncGenerate_finish
  | |- ends _ _ (asyncGenerate_catch _ _) => unfold asyncGenerate_catch
  | |- ends _ _ (match ?x with _ => _ end) => destruct x
  end.

Lemma fin_asyncGenerate_finish N s0 q :
  ends (tb N s0 (Some q)) (fin N s0) (asyncGenerate_finish q).
Proof. unfold asyncGenerate_finish. tb_ends. Qed.

Lemma fin_asyncGenerate_catch N s0 q err :
  ends (tb N s0 (Some q)) (fin N s0) (asyncGenerate_catch q err).
Proof. unfold asyncGenerate_catch. tb_ends. Qed.

Lemma fin_asyncGenerate N s0 q :
  ends (tb N s0 (Some q)) (fin N s0) (asyncGenerate q).
Proof. unfold asyncGenerate. tb_ends. Qed.

Lemma fin_resume_task N s0 f q o :
  ends (tb N s0 (Some q)) (fin N s0) (resume_task f q o).
Proof.
  unfold resume_task. destruct f, o as [[]|]; tb_ends.
Qed.

(** ** Tasks run one after the other *)

Lemma ordered_start tr m :
  ordered tr → EvStart (S m) ∈ tr → fulfilled_ev tr m.
Proof.
  induction tr as [|e tr IH]; [by intros _ ?%elem_of_nil|].
  intros [He Ho] [Heq|Hin]%elem_of_cons.
  - subst e. eapply fulfilled_ev_mono; [|exact He]. intros e ?. by apply elem_of_cons; right.
  - eapply fulfilled_ev_mono; [|by apply IH]. intros e' ?. by apply elem_of_cons; right.
Qed.

Lemma ordered_before tr l1 l2 m :
  ordered tr → tr = l1 ++ EvStart (S m) :: l2 → fulfilled_ev l2 m.
Proof.
  intros Ho ->. induction l1 as [|e l1 IH]; simpl in Ho; [apply Ho|apply IH, Ho].
Qed.

Lemma settled_started N s m o :
  store_inv N s → EvSettle m o ∈ trace s → EvStart m ∈ trace s.
Proof.
  intros Hi Hm. destruct (inv_sett N s Hi m o Hm) as (p & c & Hc & Hl & _).
  by apply (inv_tstart N s Hi p c m).
Qed.

Lemma started_below N s k :
  store_inv N s → EvStart k ∈ trace s → ∀ j, j < k → fulfilled_ev (trace s) j.
Proof.
  intros Hi. induction k as [|k IH]; intros Hk j Hj; [lia|].
  pose proof (ordered_start _ k (inv_ord N s Hi) Hk) as Hf.
  destruct (decide (j = k)) as [->|Hne]; [done|].
  apply IH; [|lia]. destruct Hf as [v Hv]. by eapply settled_started.
Qed.

Lemma start_token s n : EvStart n ∈ trace s → n ∈ tokens s.
Proof.
  intros Hn. unfold tokens. apply elem_of_app; right.
  apply list_elem_of_bind. exists (EvStart n). split; [by left|done].
Qed.

Lemma task_frames_self N s f q :
  store_inv N s → (f, q) ∈ task_frames s → task_self s q.
Proof.
  intros Hi Hfq. unfold task_frames in Hfq.
  apply list_elem_of_bind in Hfq as (r & Hr & Hin).
  assert (r = RTask f q) as ->.
  { destruct r; simpl in Hr; try by apply elem_of_nil in Hr.
    apply list_elem_of_singleton in Hr. congruence. }
  unfold all_reactions in Hin. apply elem_of_app in Hin as [Hin|Hin].
  - apply list_elem_of_bind in Hin as (c & Hrc & Hc).
    apply list_elem_of_lookup in Hc as [p Hp].
    exact (inv_react N s Hi p c _ Hp Hrc).
  - apply list_elem_of_bind in Hin as (j & Hrj & Hj).
    destruct j as [r o|]; simpl in Hrj; [|by apply elem_of_nil in Hrj].
    apply list_elem_of_singleton in Hrj. subst r.
    exact (inv_jobs N s Hi _ Hj).
Qed.

(** When task [n] is about to start, no task of ChatUI is suspended. *)
Lemma no_frames_at_start N s n :
  store_inv N s → n ∉ tokens s →
  (∀ m, n = S m → fulfilled_ev (trace s) m) →
  task_frames s = [].
Proof.
  intros Hi Hn Hful. apply elem_of_nil_inv. intros [f q] Hfq.
  destruct (task_frames_self N s f q Hi Hfq) as (c & k & Hc & Hl & Hp & _).
  pose proof (inv_tstart N s Hi q c k Hc Hl) as Hk.
  assert (Hkful : fulfilled_ev (trace s) k).
  { destruct (decide (k < n)) as [Hlt|Hge].
    - destruct n as [|m]; [lia|].
      destruct (decide (k = m)) as [->|Hne]; [by apply Hful|].
      eapply (started_below N s m); [done| |lia].
      destruct (Hful m eq_refl) as [v Hv]. by eapply settled_started.
    - destruct (decide (k = n)) as [->|Hne]; [by destruct Hn; apply start_token|].
      destruct Hn. apply start_token.
      destruct (started_below N s k Hi Hk n) as [v Hv]; [lia|].
      by eapply settled_started. }
  destruct Hkful as [v Hv].
  destruct (inv_sett N s Hi k _ Hv) as (p' & c' & Hc' & Hl' & Hs').
  assert (p' = q) as -> by (by eapply (inv_tuniq N s Hi)).
  congruence.
Qed.

Lemma store_inv_pop N j rest s :
  microtasks s = j :: rest → store_inv N s →
  let s' := set_microtasks (λ _, rest) s in
  store_inv N s' ∧ stable s s' ∧ job_ok s' j ∧
  match j with JReact r _ => fresh_reaction N s' r | JThenable _ _ => True end.
Proof.
  intros Hj Hi s'. pose proof Hi as [H1 H2 H4 H5 H6 H7 H8 H9 H10 H11 H12 H13].
  assert (Hr : all_reactions s ≡ₚ job_reactions j ++ all_reactions s').
  { unfold all_reactions. rewrite Hj, bind_cons. simpl. solve_Permutation. }
  assert (Htok : tokens s ≡ₚ (job_reactions j ≫= then_index) ++ tokens s').
  { unfold tokens. rewrite Hr, bind_app. simpl. solve_Permutation. }
  assert (Hfr : task_frames s ≡ₚ (job_reactions j ≫= task_frame) ++ task_frames s').
  { unfold task_frames. by rewrite Hr, bind_app. }
  rewrite Htok in H1. apply NoDup_app in H1 as (_ & Hdisj & Hnd).
  assert (Hb : ∀ n, n ∈ tokens s' → n < N).
  { intros n Hn. apply H2. rewrite Htok. apply elem_of_app. by right. }
  assert (Hj' : j ∈ microtasks s) by (rewrite Hj; by left).
  split_and!.
  - constructor; try done.
    + intros j' Hin. apply (H7 j'). rewrite Hj. by right.
    + rewrite Hfr, length_app in H13. lia.
  - by split.
  - exact (H7 j Hj').
  - destruct j as [r o|]; [|done]. simpl in *. rewrite app_nil_r in *. split.
    + intros n Hn. split; [by apply Hdisj|]. apply H2. rewrite Htok.
      apply elem_of_app. by left.
    + intros fq Hfq. rewrite Hfr, length_app in H13.
      destruct (task_frame r); [by apply elem_of_nil in Hfq|].
      destruct (task_frames s'); [done|simpl in H13; lia].
Qed.

Lemma fin_stable N s0 s1 s : stable s0 s1 → fin N s1 s → fin N s0 s.
Proof. intros H01 [Hi H1]. split; [done|by eapply stable_trans]. Qed.

Lemma bind_eq {A B} (m : proc A) (k : A → proc B) s :
  bind m k s = k (m s).1 (m s).2.
Proof. unfold bind. by destruct (m s). Qed.

Lemma tb_new_task N s n :
  store_inv N s → EvStart n ∈ trace s →
  (∀ p c, store s !! p = Some c → plabel c ≠ Some (LTask n)) →
  task_frames s = [] →
  let s' := exec (new_promise (Some (LTask n)) None) s in
  tb N s' (Some (length (store s))) s' ∧ has_lbl s' (length (store s)) (LTask n) ∧
  stable s s'.
Proof.
  intros Hi Hn Hno Hfr s'. split_and!.
  - split; [by apply store_inv_alloc|]. split; [apply stable_refl|]. split.
    + eexists _, n. split; [apply lookup_snoc_Some; right; split; reflexivity|done].
    + unfold task_frames, s', exec, new_promise. cbn [snd].
      by rewrite all_reactions_snoc.
  - eexists. split; [apply lookup_snoc_Some; right; split; reflexivity|done].
  - apply stable_new_promise.
Qed.

Lemma start_task_ok N s0 n t s :
  store_inv N s → stable s0 s → n ∉ tokens s → n < N →
  (∀ m, n = S m → fulfilled_ev (trace s) m) →
  fin N s0 (exec (start_task n t) s) ∧
  has_lbl (exec (start_task n t) s) (start_task n t s).1 (LTask n).
Proof.
  intros Hi Hst Hn Hlt Hful.
  pose proof (no_frames_at_start N s n Hi Hn Hful) as Hfr.
  assert (Hnol : ∀ p c, store s !! p = Some c → plabel c ≠ Some (LTask n)).
  { intros p c Hc Hl. apply Hn, start_token. by apply (inv_tstart N s Hi p c). }
  set (s1 := exec (log (EvStart n)) s).
  assert (Hi1 : store_inv N s1) by (by apply store_inv_start).
  assert (Hst1 : stable s0 s1) by (eapply stable_trans; eauto using stable_log).
  assert (Hn1 : EvStart n ∈ trace s1) by (by left).
  unfold start_task, exec. rewrite bind_eq. change ((log (EvStart n) s).2) with s1.
  destruct t as [| |[o|]].
  - (* generate *)
    destruct (tb_new_task N s1 n Hi1 Hn1 Hnol Hfr) as (Htb & Hl & Hst2).
    rewrite bind_eq.
    set (q := (new_promise (Some (LTask n)) None s1).1) in *.
    set (s2 := (new_promise (Some (LTask n)) None s1).2) in *.
    pose proof (fin_asyncGenerate N s2 q s2 Htb) as Hfin.
    rewrite bind_eq. cbn [ret fst snd]. split.
    + eapply fin_stable; [|exact Hfin]. by eapply stable_trans.
    + destruct Hfin as [_ [[Hg _] _]]. by apply Hg.
  - (* reset *)
    destruct (tb_new_task N s1 n Hi1 Hn1 Hnol Hfr) as (Htb & Hl & Hst2).
    rewrite bind_eq.
    set (q := (new_promise (Some (LTask n)) None s1).1) in *.
    set (s2 := (new_promise (Some (LTask n)) None s1).2) in *.
    pose proof (fin_await_task N s2 q XResetChat ResetChat s2 Htb) as Hfin.
    rewrite !bind_eq. cbn [ret fst snd]. split.
    + eapply fin_stable; [|exact Hfin]. by eapply stable_trans.
    + destruct Hfin as [_ [[Hg _] _]]. by apply Hg.
  - (* another task that has returned already *)
    destruct (tb_new_task N s1 n Hi1 Hn1 Hnol Hfr) as (Htb & Hl & Hst2).
    rewrite bind_eq.
    set (q := (new_promise (Some (LTask n)) None s1).1) in *.
    set (s2 := (new_promise (Some (LTask n)) None s1).2) in *.
    pose proof (fin_settle_self N s2 q o s2 Htb) as Hfin.
    rewrite bind_eq. cbn [ret fst snd]. split.
    + eapply fin_stable; [|exact Hfin]. by eapply stable_trans.
    + destruct Hfin as [_ [[Hg _] _]]. by apply Hg.
  - (* another task, suspended *)
    cbn [fst snd]. split.
    + split; [by apply store_inv_alloc|].
      eapply stable_trans; eauto using stable_new_promise.
    + eexists. split; [apply lookup_snoc_Some; right; split; reflexivity|done].
Qed.

Section Runs.

Variable render : string → string.
Variable values_length : nat.

Lemma tb_initChatUI_catch N s0 o err : pres (tb N s0 o) (initChatUI_catch err).
Proof. unfold initChatUI_catch. tb_benign. Qed.

Lemma tb_initChatUI_ready N s0 o b : pres (tb N s0 o) (initChatUI_ready b).
Proof. unfold initChatUI_ready. tb_benign. Qed.

Lemma tb_initChatUI_probe N s0 o r : pres (tb N s0 o) (initChatUI_probe r).
Proof. unfold initChatUI_probe. tb_benign; apply tb_initChatUI_ready. Qed.

Lemma tb_initChatUI N s0 o : pres (tb N s0 o) initChatUI.
Proof. unfold initChatUI. tb_benign. Qed.

Lemma tb_onDownload N s0 o : pres (tb N s0 o) onDownload.
Proof. unfold onDownload. tb_benign. apply tb_initChatUI. Qed.

Lemma tb_resume_detached N s0 f r :
  pres (tb N s0 None) (resume_detached values_length f r).
Proof.
  unfold resume_detached, updateLastMessage_write.
  destruct f, r as [[]|]; tb_benign;
    lazymatch goal with
    | |- pres _ (initChatUI_catch _) => apply tb_initChatUI_catch
    | |- pres _ (initChatUI_probe _) => apply tb_initChatUI_probe
    end.
Qed.

Lemma tb_intro N s : store_inv N s → tb N s None s.
Proof. intros Hi. split; [done|]. split; [apply stable_refl|done]. Qed.

Lemma fin_of_pres {A} N s (m : proc A) :
  store_inv N s → pres (tb N s None) m → fin N s (exec m s).
Proof. intros Hi Hm. apply (ends_pres N s None m Hm s). by apply tb_intro. Qed.

Lemma run_job_ok N j s :
  store_inv N s → job_ok s j →
  match j with JReact r _ => fresh_reaction N s r | JThenable _ _ => True end →
  fin N s (exec (run_job values_length j) s).
Proof.
  intros Hi Hj Hf. destruct j as [[n t d|d|f q|f] o|q d]; simpl in Hj.
  - destruct Hj as [Hd Hful]. destruct Hf as [Hf _].
    destruct (Hf n) as [Hn Hlt]; [by left|].
    destruct o as [v|e]; cbn [run_job].
    + destruct (start_task_ok N s n t s Hi (stable_refl s) Hn Hlt) as [[Hi' Hst] Hq].
      { intros m ->. by eapply Hful. }
      unfold exec. rewrite bind_eq. split.
      * apply store_inv_enqueue_thenable; [done|]. exists n. split; [done|].
        by apply Hst.
      * eapply stable_trans; eauto using stable_enqueue.
    + split; [|apply stable_settle]. apply store_inv_settle; [done|].
      intros c Hc Hp. destruct Hd as (c' & Hc' & Hl). assert (c' = c) as -> by congruence.
      rewrite Hl. by intros v.
  - destruct Hj as (n & Hd & Hful). cbn [run_job].
    split; [|apply stable_settle]. apply store_inv_settle; [done|].
    intros c Hc Hp. destruct Hd as (c' & Hc' & Hl). assert (c' = c) as -> by congruence.
    rewrite Hl. intros v ->. by eapply Hful.
  - cbn [run_job]. apply (fin_resume_task N s f q o s).
    split; [done|]. split; [apply stable_refl|].
    split; [done|]. destruct Hf as [_ Hf]. apply (Hf (f, q)). by left.
  - cbn [run_job]. apply fin_of_pres; [done|apply tb_resume_detached].
  - destruct Hj as (n & (cq & Hcq & Hlq) & Hd). cbn [run_job].
    split; [|apply stable_subscribe]. apply store_inv_subscribe; [done| |].
    + intros c Hc. assert (cq = c) as -> by congruence. split.
      * intros _. exists n. by split.
      * intros o Ho. exists n. split; [done|]. intros v ->. exists v.
        by apply (inv_tset N s Hi q c n).
    + split; [intros k Hk|intros fq Hk]; by apply elem_of_nil in Hk.
Qed.

Lemma resolve_ok N p o s :
  store_inv N s → fin N s (exec (resolve render p o) s).
Proof.
  intros Hi. unfold exec, resolve.
  destruct (store s !! p) as [c|] eqn:Hc; [|split; [done|apply stable_refl]].
  destruct (pext c) as [x|] eqn:Hx; [|split; [done|apply stable_refl]].
  destruct (ext_result render x o) as [o'|]; [|split; [done|apply stable_refl]].
  split; [|apply stable_settle]. apply store_inv_settle; [done|].
  intros c' Hc' Hp. assert (c' = c) as -> by congruence.
  destruct (plabel c) as [[[|n]|n]|] eqn:Hl; try done.
  - by rewrite (inv_cext N s Hi p c _ Hc Hl) in Hx.
  - intros f Hf. destruct (task_frames_self N s f p Hi Hf) as (c2 & k & Hc2 & _ & _ & Hx').
    congruence.
Qed.

Lemma chain_inv_fin s s' : chain_inv s → fin (pushed s) s s' → chain_inv s'.
Proof.
  intros [Hi Hc] [Hi' ([Hg _] & Hp & Hch)]. rewrite <- Hp in Hi'. split; [done|].
  rewrite Hp, Hch. by apply Hg.
Qed.

Lemma pushTask_ok t s : chain_inv s → chain_inv (exec (pushTask t) s).
Proof.
  intros [Hi Hc]. unfold pushTask, exec. rewrite !bind_eq. cbn [get_ui ret fst snd].
  set (N := pushed s). set (lastEvent := chatRequestChain (ui s)).
  set (s1 := (log (EvPush N t) s).2).
  assert (Hi1 : store_inv (S N) s1).
  { apply store_inv_log; [done|done|]. eapply store_inv_weaken; [|exact Hi]. lia. }
  set (d := (new_promise (Some (LChain (S N))) None s1).1).
  set (s2 := (new_promise (Some (LChain (S N))) None s1).2).
  assert (Hi2 : store_inv (S N) s2) by (by apply store_inv_alloc).
  assert (Hd : has_lbl s2 d (LChain (S N))).
  { eexists. split; [apply lookup_snoc_Some; right; split; reflexivity|done]. }
  assert (Hc2 : has_lbl s2 lastEvent (LChain N)).
  { apply (has_lbl_snoc s1). exact Hc. }
  set (s3 := (subscribe lastEvent (RThen N t d) s2).2).
  assert (Hi3 : store_inv (S N) s3).
  { apply store_inv_subscribe; [done| |].
    - intros c Hcl. destruct Hc2 as (c' & Hc' & Hl). assert (c' = c) as -> by congruence.
      split; [done|]. intros o Ho. split; [done|]. intros m v -> ->.
      apply (inv_cful (S (S m)) s2 Hi2 lastEvent c m v Hcl Hl Ho).
    - split; [|intros fq Hk; by apply elem_of_nil in Hk].
      intros n ->%list_elem_of_singleton. split; [|lia].
      intros Hn. pose proof (inv_bound N s Hi N) as Hlt.
      assert (N < N); [|lia]. apply Hlt.
      unfold tokens in Hn |- *. unfold s2, new_promise in Hn. cbn [snd] in Hn.
      by rewrite all_reactions_snoc in Hn. }
  split.
  - apply store_inv_pushed, store_inv_ui. exact Hi3.
  - cbn [pushed ui set_pushed exec modify_ui set_ui chatRequestChain set_chatRequestChain snd].
    apply (stable_subscribe lastEvent (RThen N t d) s2). exact Hd.
Qed.

Lemma step_ok a s : chain_inv s → chain_inv (step render values_length a s).
Proof.
  intros Hinv. pose proof Hinv as [Hi Hc]. destruct a; cbn [step].
  - eapply chain_inv_fin; [done|]. apply fin_of_pres; [done|apply tb_modify_dom].
  - unfold onGenerate, exec. rewrite bind_eq. cbn [get_ui fst snd].
    destruct (requestInProgress (ui s)); [done|]. by apply pushTask_ok.
  - unfold onReset, exec. rewrite !bind_eq. cbn [get_ui fst snd].
    apply pushTask_ok. destruct (requestInProgress (ui s)); [|done].
    eapply chain_inv_fin; [done|].
    apply fin_of_pres; [done|]. by apply tb_log.
  - eapply chain_inv_fin; [done|]. apply fin_of_pres; [done|apply tb_onDownload].
  - by apply pushTask_ok.
  - destruct (microtasks s) as [|j rest] eqn:Hj; [done|].
    destruct (store_inv_pop (pushed s) j rest s Hj Hi) as (Hi' & Hst & Hjok & Hf).
    eapply chain_inv_fin; [done|]. eapply fin_stable; [exact Hst|].
    by apply run_job_ok.
  - eapply chain_inv_fin; [done|]. by apply resolve_ok.
Qed.

Lemma create_ok d : chain_inv (create d).
Proof.
  split.
  - constructor; simpl.
    + apply NoDup_nil_2.
    + by intros n ?%elem_of_nil.
    + intros [|p] c n Hc Hl; simplify_eq/=; done.
    + intros [|p] c n v Hc Hl; simplify_eq/=.
    + intros [|p] c r Hc Hr; simplify_eq/=. by apply elem_of_nil in Hr.
    + by intros j ?%elem_of_nil.
    + intros [|p] c n Hc Hl; simplify_eq/=.
    + intros [|p] p' c c' n Hc Hc' Hl; simplify_eq/=.
    + intros [|p] c n o Hc Hl; simplify_eq/=.
    + by intros n o ?%elem_of_nil.
    + done.
    + lia.
  - by eexists.
Qed.

Lemma run_ok l s : chain_inv s → chain_inv (run render values_length l s).
Proof.
  revert s. induction l as [|a l IH]; intros s Hs; [done|].
  simpl. by apply IH, step_ok.
Qed.

End Runs.

(** ** What a continuation does to the object and to its own promise *)

Lemma await_spec c r s : exec (await c r) s = awaited c r s.
Proof.
  unfold await, call, exec. rewrite !bind_eq. cbn [new_promise log ret fst snd].
  unfold subscribe. cbn [store set_trace set_store].
  rewrite lookup_app_r by done. rewrite Nat.sub_diag. cbn [lookup list_lookup pst snd].
  unfold awaited, set_store, set_trace. simpl. f_equal.
  rewrite insert_app_r_alt by done. rewrite Nat.sub_diag. done.
Qed.



Lemma pa_await q c r : pres (λ s, pending_at s q) (await c r).
Proof.
  intros s (cq & Hq & Hp). rewrite await_spec. exists cq. split; [|done].
  by apply lookup_app_l_Some.
Qed.

Lemma pa_modify_ui q f : pres (λ s, pending_at s q) (modify_ui f).
Proof. by intros s H. Qed.

Lemma pa_log q e : pres (λ s, pending_at s q) (log e).
Proof. by intros s H. Qed.

Lemma settle_pending s q o :
  pending_at s q →
  (∃ c, store (exec (settle q o) s) !! q = Some c ∧ pst c = Settled o) ∧
  ui (exec (settle q o) s) = ui s.
Proof.
  intros (c & Hc & Hp). unfold exec, settle. rewrite Hc, Hp. cbn [snd store ui].
  split; [|done]. eexists. split.
  - apply list_lookup_insert_eq. eapply lookup_lt_Some, Hc.
  - reflexivity.
Qed.

Ltac pres_go leaf :=
  repeat lazymatch goal with
  | |- pres _ (ret _) => apply pres_ret
  | |- pres _ get_ui => apply pres_get_ui
  | |- pres _ (bind _ _) => apply pres_bind; [|intros ?]
  | |- pres _ (modify_dom _) => unfold modify_dom
  | |- pres _ (appendMessage _ _) => unfold appendMessage
  | |- pres _ (appendUserMessage _) => unfold appendUserMessage
  | |- pres _ (updateLastMessage _ _ _) => unfold updateLastMessage
  | |- pres _ (updateLastMessage_write _ _ _) => unfold updateLastMessage_write
  | |- pres _ (push_turn _) => unfold push_turn
  | |- pres _ resetChatHistory => unfold resetChatHistory
  | |- pres _ unloadEngine_done => unfold unloadEngine_done
  | |- pres _ (match ?x with _ => _ end) => destruct x
  | |- pres _ (await _ _) => leaf
  | |- pres _ (modify_ui _) => leaf
  | |- pres _ (log _) => leaf
  end.

Ltac pa_leaf := idtac;
  lazymatch goal with
  | |- pres _ (await _ _) => apply pa_await
  | |- pres _ (modify_ui _) => apply pa_modify_ui
  | |- pres _ (log _) => apply pa_log
  end.

Lemma pa_updateLastMessage q kind text keep :
  pres (λ s, pending_at s q) (updateLastMessage kind text keep).
Proof. unfold updateLastMessage. pres_go pa_leaf. Qed.

Lemma pa_appendMessage q kind text :
  pres (λ s, pending_at s q) (appendMessage kind text).
Proof. unfold appendMessage. pres_go pa_leaf. Qed.

Lemma pa_asyncGenerate_catch q err :
  pres (λ s, pending_at s q) (asyncGenerate_catch q err).
Proof. unfold asyncGenerate_catch. pres_go pa_leaf. Qed.

(** The object after a continuation. *)
Lemma ui_await c r s : ui (exec (await c r) s) = ui s.
Proof. by rewrite await_spec. Qed.


Lemma ui_updateLastMessage kind text keep s :
  ui (exec (updateLastMessage kind text keep) s) = ui s.
Proof.
  unfold updateLastMessage. rewrite exec_bind. cbn [get_ui fst exec snd].
  destruct (last_of_kind _ _); [apply ui_await|done].
Qed.




(** ** The generate task: return paths and the guard *)










(** The path the three do not cover: [engine.unload()] itself throws; the
    task is rejected and the flag stays as [asyncGenerate] set it. *)
Lemma asyncGenerate_unload_failure (s : Sys) (q : pid) (e : string) :
  pending_at s q →
  rejected_at (exec (resume_task GenUnload q (Err e)) s) q e ∧
  ui (exec (resume_task GenUnload q (Err e)) s) = ui s.
Proof.
  intros Hq. cbn [resume_task].
  destruct (settle_pending s q (Err e) Hq) as [(c & Hc & Hs) Hu]. split; [by exists c|done].
Qed.

(** ** The empty prompt *)





(** ** The guard of [onGenerate] *)




Lemma ui_appendUserMessage text s :
  ui (exec (appendUserMessage text) s) = set_dom (insert_block "primary" "") (ui s).
Proof. unfold appendUserMessage. rewrite !exec_bind. by rewrite ui_await. Qed.







(** ** The device probe *)

Lemma restricted_spec (gpuVendor : string) (size : Z) :
  restricted gpuVendor size = true ↔
  (size ≤ 2 ^ 27)%Z ∨ gpuVendor = "qualcomm" ∨ gpuVendor = "arm".
Proof.
  unfold restricted, mobileVendors, androidMaxStorageBufferBindingSize.
  change (Z.shiftl 1 27) with (2 ^ 27)%Z.
  rewrite orb_true_iff, andb_true_iff, negb_true_iff, !bool_decide_eq_true,
    bool_decide_eq_false.
  rewrite !elem_of_cons, elem_of_nil. split.
  - intros [[_ Hv]|Hs]; [|by left]. right. destruct Hv as [?|[?|?]]; tauto.
  - intros [Hs|[Hv|Hv]]; [by right|left..]; subst gpuVendor; (split; [simpl; lia|tauto]).
Qed.

Lemma tm_await e c r : pres (λ s, e ∈ trace s) (await c r).
Proof. intros s H. rewrite await_spec. by apply elem_of_cons; right. Qed.

Lemma tm_log e e' : pres (λ s, e ∈ trace s) (log e').
Proof. intros s H. by apply elem_of_cons; right. Qed.

Lemma tm_modify_ui e f : pres (λ s, e ∈ trace s) (modify_ui f).
Proof. by intros s H. Qed.

Ltac tm_leaf := idtac;
  lazymatch goal with
  | |- pres _ (await _ _) => apply tm_await
  | |- pres _ (log _) => apply tm_log
  | |- pres _ (modify_ui _) => apply tm_modify_ui
  end.

Lemma initChatUI_ready_spec b s :
  (initChatUI_ready b s).1 = b ∧
  EvRestrict b ∈ trace (exec (initChatUI_ready b) s) ∧
  requestInProgress (ui (exec (initChatUI_ready b) s)) = false ∧
  chatLoaded (ui (exec (initChatUI_ready b) s)) = true ∧
  inputDisabled (dom (ui (exec (initChatUI_ready b) s))) = false.
Proof.
  unfold initChatUI_ready. split_and!.
  - by rewrite !bind_eq.
  - rewrite exec_bind.
    match goal with
    | |- _ ∈ trace (exec ?m ?s1) =>
        assert (Hm : pres (λ s, EvRestrict b ∈ trace s) m) by pres_go tm_leaf;
        apply (Hm s1)
    end. by left.
  - rewrite !exec_bind. done.
  - rewrite !exec_bind. done.
  - rewrite !exec_bind. done.
Qed.

Lemma initChatUI_probe_ok size vendor s :
  initChatUI_probe (Ok (VProbe size vendor)) s =
  (if restricted vendor size
   then (updateLastMessage "info"
           "Your device seems to have limited resources, so we restrict the selectable models."
           true ;; initChatUI_ready true)
   else initChatUI_ready false) s.
Proof.
  unfold initChatUI_probe. rewrite bind_eq. cbn [ret fst snd].
  destruct (restricted vendor size); by rewrite !bind_eq.
Qed.

Lemma initChatUI_probe_err err s :
  initChatUI_probe (Err err) s =
  (appendMessage "danger" ("Error reading GPU-vendor " +:+ err) ;;
   updateLastMessage "info"
     "Your device seems to have limited resources, so we restrict the selectable models."
     true ;;
   initChatUI_ready true) s.
Proof.
  unfold initChatUI_probe. rewrite !bind_eq. cbn [ret fst snd].
  change (restricted "" 0) with true. cbn iota. by rewrite !bind_eq.
Qed.

Section Claims.

Variable render : string → string.
Variable values_length : nat.

(** ** A failed generation *)



End Claims.

(** C5: with a size and a vendor from the probe, [restrictModels] ends up
    true exactly when the size is at most 2^27 (134217728 itself included)
    or the vendor is "qualcomm" or "arm"; the value is the one the function
    leaves in its local variable, recorded in the trace. *)
Theorem device_restriction_flag (s : Sys) (size : Z) (vendor : string) :
  ((initChatUI_probe (Ok (VProbe size vendor)) s).1 = true ↔
   (size ≤ 2 ^ 27)%Z ∨ vendor = "qualcomm" ∨ vendor = "arm") ∧
  EvRestrict (initChatUI_probe (Ok (VProbe size vendor)) s).1 ∈
    trace (exec (initChatUI_probe (Ok (VProbe size vendor))) s) ∧
  (initChatUI_probe (Ok (VProbe (2 ^ 27) vendor)) s).1 = true ∧
  (initChatUI_probe (Ok (VProbe (2 ^ 27 + 1) "nvidia")) s).1 = false.
Proof.
  assert (Hres : ∀ sz v,
    (initChatUI_probe (Ok (VProbe sz v)) s).1 = restricted v sz ∧
    EvRestrict (restricted v sz) ∈ trace (exec (initChatUI_probe (Ok (VProbe sz v))) s)).
  { intros sz v. unfold exec. rewrite initChatUI_probe_ok.
    destruct (restricted v sz).
    - rewrite bind_eq. split; apply initChatUI_ready_spec.
    - split; apply initChatUI_ready_spec. }
  split_and!.
  - rewrite (proj1 (Hres size vendor)). apply restricted_spec.
  - rewrite (proj1 (Hres size vendor)). apply Hres.
  - rewrite (proj1 (Hres _ vendor)). apply restricted_spec. by left.
  - by rewrite (proj1 (Hres _ "nvidia")).
Qed.

(** C4, where the code departs from it: when the probe throws, the danger
    message is handed to the renderer and loading goes on to its end, but
    the size keeps its initial value 0, which is at most 2^27, so
    [restrictModels] is set to true. *)
Theorem probe_failure_restricts (s : Sys) (err : string) :
  (initChatUI_probe (Err err) s).1 = true ∧
  EvRestrict true ∈ trace (exec (initChatUI_probe (Err err)) s) ∧
  EvCall (length (store s)) (XParse ("Error reading GPU-vendor " +:+ err)) ∈
    trace (exec (initChatUI_probe (Err err)) s) ∧
  chatLoaded (ui (exec (initChatUI_probe (Err err)) s)) = true ∧
  requestInProgress (ui (exec (initChatUI_probe (Err err)) s)) = false.
Proof.
  unfold exec. rewrite initChatUI_probe_err. rewrite !bind_eq.
  split_and!; try apply initChatUI_ready_spec.
  fold (exec (appendMessage "danger" ("Error reading GPU-vendor " +:+ err)) s).
  match goal with
  | |- ?e ∈ trace (initChatUI_ready true ?s2).2 =>
      assert (Hm : pres (λ s, e ∈ trace s) (initChatUI_ready true))
        by (unfold initChatUI_ready; pres_go tm_leaf);
      apply (Hm s2)
  end.
  match goal with
  | |- ?e ∈ trace (?m ?s1).2 =>
      assert (Hm' : pres (λ s, e ∈ trace s) m) by pres_go tm_leaf;
      apply (Hm' s1)
  end.
  unfold appendMessage. rewrite await_spec. by left.
Qed.

(** ** Events are never withdrawn *)

Lemma tm_settle e p o : pres (λ s, e ∈ trace s) (settle p o).
Proof. intros s H. by apply (stable_settle p o s). Qed.

Lemma tm_subscribe e p r : pres (λ s, e ∈ trace s) (subscribe p r).
Proof. intros s H. by apply (stable_subscribe p r s). Qed.

Lemma tm_plain {A} e (m : proc A) :
  (∀ s, trace (exec m s) = trace s) → pres (λ s, e ∈ trace s) m.
Proof. intros Hm s H. by rewrite Hm. Qed.

Ltac tm_go :=
  repeat lazymatch goal with
  | |- pres _ (ret _) => apply pres_ret
  | |- pres _ get_ui => apply pres_get_ui
  | |- pres _ (bind _ _) => apply pres_bind; [|intros ?]
  | |- pres _ (await _ _) => apply tm_await
  | |- pres _ (log _) => apply tm_log
  | |- pres _ (settle _ _) => apply tm_settle
  | |- pres _ (subscribe _ _) => apply tm_subscribe
  | |- pres _ (modify_ui _) => apply tm_plain; reflexivity
  | |- pres _ (modify_dom _) => apply tm_plain; reflexivity
  | |- pres _ (new_promise _ _) => apply tm_plain; reflexivity
  | |- pres _ (enqueue _) => apply tm_plain; reflexivity
  | |- pres _ get_pushed => apply tm_plain; reflexivity
  | |- pres _ (put_pushed _) => apply tm_plain; reflexivity
  | |- pres _ (appendMessage _ _) => unfold appendMessage
  | |- pres _ (appendUserMessage _) => unfold appendUserMessage
  | |- pres _ (updateLastMessage _ _ _) => unfold updateLastMessage
  | |- pres _ (updateLastMessage_write _ _ _) => unfold updateLastMessage_write
  | |- pres _ (push_turn _) => unfold push_turn
  | |- pres _ resetChatHistory => unfold resetChatHistory
  | |- pres _ unloadEngine_done => unfold unloadEngine_done
  | |- pres _ (asyncGenerate_finish _) => unfold asyncGenerate_finish
  | |- pres _ (asyncGenerate_catch _ _) => unfold asyncGenerate_catch
  | |- pres _ (asyncGenerate _) => unfold asyncGenerate
  | |- pres _ (start_task _ _) => unfold start_task
  | |- pres _ (pushTask _) => unfold pushTask
  | |- pres _ onGenerate => unfold onGenerate
  | |- pres _ onReset => unfold onReset
  | |- pres _ onDownload => unfold onDownload
  | |- pres _ initChatUI => unfold initChatUI
  | |- pres _ (initChatUI_catch _) => unfold initChatUI_catch
  | |- pres _ (initChatUI_probe _) => unfold initChatUI_probe
  | |- pres _ (initChatUI_ready _) => unfold initChatUI_ready
  | |- pres _ (match ?x with _ => _ end) => destruct x
  end.

Lemma tm_resume_task e f q o : pres (λ s, e ∈ trace s) (resume_task f q o).
Proof. unfold resume_task. destruct f, o as [[]|]; tm_go. Qed.

Section Chain.

Variable render : string → string.
Variable values_length : nat.

Lemma tm_run_job e j : pres (λ s, e ∈ trace s) (run_job values_length j).
Proof.
  destruct j as [[n t d|d|f q|f] [v|err]|q d]; cbn [run_job]; tm_go;
    try apply tm_resume_task.
  all: unfold resume_detached; destruct f; try destruct v; tm_go.
Qed.

Lemma tm_resolve e p o : pres (λ s, e ∈ trace s) (resolve render p o).
Proof.
  intros s H. unfold exec, resolve.
  destruct (store s !! p) as [c|]; [|done]. destruct (pext c) as [x|]; [|done].
  destruct (ext_result render x o); [|done]. by apply (tm_settle e).
Qed.

Lemma step_trace a s e :
  e ∈ trace s → e ∈ trace (step render values_length a s).
Proof.
  intros H. destruct a; cbn [step].
  - done.
  - revert s H. change (pres (λ s, e ∈ trace s) onGenerate). tm_go.
  - revert s H. change (pres (λ s, e ∈ trace s) onReset). tm_go.
  - revert s H. change (pres (λ s, e ∈ trace s) onDownload). tm_go.
  - revert s H. change (pres (λ s, e ∈ trace s) (pushTask t)). tm_go.
  - destruct (microtasks s) as [|j rest]; [done|]. by apply tm_run_job.
  - by apply tm_resolve.
Qed.

Lemma run_trace l s e :
  e ∈ trace s → e ∈ trace (run render values_length l s).
Proof. revert s. induction l as [|a l IH]; intros s H; [done|]. by apply IH, step_trace. Qed.

Lemma run_app l1 l2 s :
  run render values_length (l1 ++ l2) s =
  run render values_length l2 (run render values_length l1 s).
Proof. revert s. induction l1 as [|a l1 IH]; intros s; [done|]. apply IH. Qed.

(** ** The request chain *)

Lemma settle_unique N s n o o' :
  store_inv N s → EvSettle n o ∈ trace s → EvSettle n o' ∈ trace s → o = o'.
Proof.
  intros Hi H1 H2.
  destruct (inv_sett N s Hi n o H1) as (p & c & Hc & Hl & Hs).
  destruct (inv_sett N s Hi n o' H2) as (p' & c' & Hc' & Hl' & Hs').
  assert (p = p') as -> by (by eapply (inv_tuniq N s Hi)). congruence.
Qed.

Lemma rejected_blocks N s n m e :
  store_inv N s → EvSettle n (Err e) ∈ trace s → n < m → EvStart m ∉ trace s.
Proof.
  intros Hi Hn Hlt Hm.
  destruct (started_below N s m Hi Hm n Hlt) as [v Hv].
  by pose proof (settle_unique N s n _ _ Hi Hn Hv).
Qed.

Lemma start_after_fulfilled d l n (after before : list event) :
  trace (run render values_length l (create d)) = after ++ EvStart (S n) :: before →
  fulfilled_ev before n.
Proof.
  intros Htr. destruct (run_ok render values_length l _ (create_ok d)) as [Hi _].
  eapply ordered_before; [exact (inv_ord _ _ Hi)|exact Htr].
Qed.

(** C2: in every run - whatever tasks are pushed, by the handlers or
    directly, and however the jobs and the answers of the environment are
    interleaved - the events before the start of task n+1 include the
    settling of the promise of task n. *)
Theorem pushTask_sequential (d : Dom) (l : list action) (n : nat)
    (after before : list event) :
  trace (run render values_length l (create d)) = after ++ EvStart (S n) :: before →
  ∃ o, EvSettle n o ∈ before.
Proof.
  intros Htr. destruct (start_after_fulfilled d l n after before Htr) as [v Hv]. eauto.
Qed.

(** C1, as the code has it: a task is started only once every task pushed
    before it has fulfilled; once the promise of a task is rejected, no task
    pushed after it is started, however the run goes on. *)
Theorem pushTask_rejection_stops_chain (d : Dom) (l : list action) (n m : nat)
    (e : string) :
  EvSettle n (Err e) ∈ trace (run render values_length l (create d)) →
  n < m →
  (∀ l', EvStart m ∉ trace (run render values_length (l ++ l') (create d))) ∧
  (∀ k, EvStart k ∈ trace (run render values_length l (create d)) →
        ∀ j, j < k → fulfilled_ev (trace (run render values_length l (create d))) j).
Proof.
  intros Hn Hlt. split.
  - intros l'. destruct (run_ok render values_length (l ++ l') _ (create_ok d)) as [Hi _].
    apply (rejected_blocks _ _ n m e Hi); [|done].
    rewrite run_app. by apply run_trace.
  - intros k Hk j Hj.
    destruct (run_ok render values_length l _ (create_ok d)) as [Hi _].
    by eapply started_below.
Qed.

End Chain.

(** ** The sliding window *)

Lemma turns_cons e tr : turns (e :: tr) = turns tr ++ turn_of e.
Proof. unfold turns. rewrite bind_cons, reverse_app. f_equal. by destruct e. Qed.

Lemma turns_cons_other e tr : turn_of e = [] → turns (e :: tr) = turns tr.
Proof. intros H. by rewrite turns_cons, H, app_nil_r. Qed.

Lemma hb_weaken K K' F s : K ≤ K' → hb K F s → hb K' F s.
Proof. intros ? (? & ? & ? & ?). split_and!; auto. lia. Qed.

Lemma hist_of_hb K F s :
  hb K F s → K ≤ 5 →
  (∀ f q, (f, q) ∈ F → streaming f = true → K ≤ maxMessages) →
  hist_inv s.
Proof.
  intros (H1 & H2 & H3 & H4) HK HF. constructor; auto; [lia|].
  intros f q Hfq Hs. specialize (HF f q (H4 _ Hfq) Hs). lia.
Qed.

Lemma hb_of_hist s :
  hist_inv s → hb (length (chatHistory (ui s))) (task_frames s) s.
Proof. intros [H1 H2 H3 H4]. by split_and!. Qed.

(** A step that leaves the history alone and logs no turn. *)
Lemma hb_keep K F s s' :
  hb K F s →
  chatHistory (ui s') = chatHistory (ui s) →
  (trace s' = trace s ∨
   ∃ e, trace s' = e :: trace s ∧ turn_of e = [] ∧ ∀ p h, e ≠ EvCall p (XCreate h)) →
  (∀ x, x ∈ task_frames s' → x ∈ task_frames s) →
  hb K F s'.
Proof.
  intros (H1 & H2 & H3 & H4) Hh Ht Hf. unfold hb. rewrite Hh.
  assert (H4' : ∀ x, x ∈ task_frames s' → x ∈ F) by (intros x Hx; apply H4, Hf, Hx).
  destruct Ht as [->|(e & -> & He & Hc)].
  - split_and!; auto.
  - rewrite turns_cons_other by done. split_and!; auto.
    intros p h [Heq|Hin]%elem_of_cons; [by destruct (Hc p h)|exact (H3 p h Hin)].
Qed.

Lemma all_reactions_awaited c r s :
  all_reactions (awaited c r s) ≡ₚ r :: all_reactions s.
Proof.
  unfold all_reactions, awaited; simpl. rewrite bind_app, bind_singleton. simpl.
  solve_Permutation.
Qed.

Lemma task_frames_awaited c r s :
  task_frames (awaited c r s) ≡ₚ task_frame r ++ task_frames s.
Proof. unfold task_frames. by rewrite all_reactions_awaited, bind_cons. Qed.

Lemma hb_log K F e :
  turn_of e = [] → (∀ p h, e ≠ EvCall p (XCreate h)) → pres (hb K F) (log e).
Proof.
  intros He Hc s H. apply (hb_keep K F s); [done|done| |done]. right. by exists e.
Qed.

Lemma hb_modify_ui K F f :
  (∀ u, chatHistory (f u) = chatHistory u) → pres (hb K F) (modify_ui f).
Proof. intros Hf s H. apply (hb_keep K F s); [done|apply Hf|by left|done]. Qed.

Lemma hb_await K F c f :
  is_create c = false → pres (hb K F) (await c (RDetached f)).
Proof.
  intros Hc s H. rewrite await_spec. apply (hb_keep K F s); [done|done| |].
  - right. eexists. split; [reflexivity|]. split; [done|].
    intros p h [= _ ->]. done.
  - intros x. by rewrite task_frames_awaited.
Qed.

Lemma hb_settle K F p o : pres (hb K F) (settle p o).
Proof.
  intros s H. destruct (settle_cases p o s) as [[-> _]|(c & Hc & Hs & ->)]; [done|].
  fold (settled_state p c o s). apply (hb_keep K F s); [done|done| |].
  - simpl. destruct (plabel c) as [[?|n]|]; [by left| |by left].
    right. eexists. split; [reflexivity|done].
  - intros x. unfold task_frames. by rewrite all_reactions_settled.
Qed.

Lemma hb_subscribe K F p r :
  task_frame r = [] → pres (hb K F) (subscribe p r).
Proof.
  intros Hr s H. apply (hb_keep K F s); [done| | |].
  - destruct (subscribe_cases p r s) as [[-> _]|[(c & o & _ & _ & ->)|(c & _ & _ & ->)]]; done.
  - destruct (subscribe_cases p r s) as [[-> _]|[(c & o & _ & _ & ->)|(c & _ & _ & ->)]]; by left.
  - intros x. by rewrite task_frames_subscribe.
Qed.

Lemma hb_plain {A} K F (m : proc A) :
  (∀ s, chatHistory (ui (exec m s)) = chatHistory (ui s) ∧
        trace (exec m s) = trace s ∧ task_frames (exec m s) ≡ₚ task_frames s) →
  pres (hb K F) m.
Proof.
  intros Hm s H. destruct (Hm s) as (H1 & H2 & H3).
  apply (hb_keep K F s); [done|done|by left|]. intros x. by rewrite H3.
Qed.

Lemma hb_new_promise K F l x : pres (hb K F) (new_promise l x).
Proof.
  apply hb_plain. intros s. split_and!; try done.
  unfold task_frames, exec, new_promise. cbn [snd]. by rewrite all_reactions_snoc.
Qed.

Lemma hb_enqueue_thenable K F q d : pres (hb K F) (enqueue (JThenable q d)).
Proof.
  apply hb_plain. intros s. split_and!; try done.
  unfold task_frames, exec, enqueue. cbn [snd].
  by rewrite (all_reactions_enqueue (JThenable q d)).
Qed.

Ltac hb_side :=
  first [ reflexivity | discriminate | intros ?; reflexivity
        | intros ?; case_decide; reflexivity | intros ? ?; discriminate ].

Ltac hb_go :=
  repeat lazymatch goal with
  | |- pres _ (ret _) => apply pres_ret
  | |- pres _ get_ui => apply pres_get_ui
  | |- pres _ (bind _ _) => apply pres_bind; [|intros ?]
  | |- pres _ (await _ (RDetached _)) => apply hb_await; hb_side
  | |- pres _ (log _) => apply hb_log; hb_side
  | |- pres _ (settle _ _) => apply hb_settle
  | |- pres _ (subscribe _ _) => apply hb_subscribe; hb_side
  | |- pres _ (modify_ui _) => apply hb_modify_ui; hb_side
  | |- pres _ (modify_dom _) => apply hb_modify_ui; hb_side
  | |- pres _ (new_promise _ _) => apply hb_new_promise
  | |- pres _ (enqueue (JThenable _ _)) => apply hb_enqueue_thenable
  | |- pres _ get_pushed => apply hb_plain; by intros ?
  | |- pres _ (put_pushed _) => apply hb_plain; by intros ?
  | |- pres _ (appendMessage _ _) => unfold appendMessage
  | |- pres _ (appendUserMessage _) => unfold appendUserMessage
  | |- pres _ (updateLastMessage _ _ _) => unfold updateLastMessage
  | |- pres _ (updateLastMessage_write _ _ _) => unfold updateLastMessage_write
  | |- pres _ unloadEngine_done => unfold unloadEngine_done
  | |- pres _ (pushTask _) => unfold pushTask
  | |- pres _ onGenerate => unfold onGenerate
  | |- pres _ onReset => unfold onReset
  | |- pres _ onDownload => unfold onDownload
  | |- pres _ initChatUI => unfold initChatUI
  | |- pres _ (initChatUI_catch _) => unfold initChatUI_catch
  | |- pres _ (initChatUI_probe _) => unfold initChatUI_probe
  | |- pres _ (initChatUI_ready _) => unfold initChatUI_ready
  | |- pres _ (match ?x with _ => _ end) => destruct x
  end.

Lemma hb_pushTask K F t : pres (hb K F) (pushTask t).
Proof. hb_go. Qed.

Lemma hb_onDownload K F : pres (hb K F) onDownload.
Proof. hb_go. Qed.

Lemma hb_onGenerate K F : pres (hb K F) onGenerate.
Proof. hb_go. Qed.

Lemma hb_onReset K F : pres (hb K F) onReset.
Proof. hb_go. Qed.

Lemma ends_seq {A B} P Q R (m : proc A) (k : A → proc B) :
  ends P Q m → (∀ a, ends Q R (k a)) → ends P R (bind m k).
Proof. intros Hm Hk s HP. rewrite exec_bind. apply Hk, Hm, HP. Qed.

Lemma ends_get_ui {B} P Q (k : ChatUI → proc B) :
  (∀ u, ends (λ s, P s ∧ ui s = u) Q (k u)) → ends P Q (bind get_ui k).
Proof. intros Hk s HP. rewrite exec_bind. by apply (Hk (ui s)). Qed.

Lemma ends_weaken {A} (P P' Q Q' : Sys → Prop) (m : proc A) :
  ends P' Q' m → (∀ s, P s → P' s) → (∀ s, Q' s → Q s) → ends P Q m.
Proof. intros Hm HP HQ s H. apply HQ, Hm, HP, H. Qed.

Lemma hb_push_turn K F m : ends (hb K F) (hb (S K) F) (push_turn m).
Proof.
  intros s (H1 & H2 & H3 & H4). unfold push_turn. rewrite exec_bind.
  unfold hb. cbn [exec log modify_ui snd ui set_ui trace set_trace chatHistory set_chatHistory].
  rewrite turns_cons. cbn [turn_of]. split_and!.
  - by apply suffix_app.
  - rewrite length_app. simpl. lia.
  - intros p h [Heq|Hin]%elem_of_cons; [done|exact (H3 p h Hin)].
  - exact H4.
Qed.

Lemma hb_truncate K F :
  ends (hb K F) (hb maxMessages F)
    (modify_ui (λ u, if decide (maxMessages < length (chatHistory u))
                     then set_chatHistory (slice_last maxMessages (chatHistory u)) u
                     else u)).
Proof.
  intros s (H1 & H2 & H3 & H4). unfold hb.
  cbn [exec modify_ui snd ui set_ui trace]. case_decide.
  - cbn [chatHistory set_chatHistory]. split_and!; try done.
    + etrans; [apply suffix_drop|done].
    + unfold slice_last. rewrite length_drop. lia.
  - split_and!; try done. lia.
Qed.

Lemma hb_resetChatHistory K F : ends (hb K F) (hb 0 F) resetChatHistory.
Proof.
  unfold resetChatHistory. apply ends_seq with (Q := hb 0 F).
  - intros s (H1 & H2 & H3 & H4). split_and!; try done. apply suffix_nil.
  - intros _. change (pres (hb 0 F)
      (modify_dom (λ d, set_uiChat (foldl remove_kind (uiChat d) clearTags) d) ;;
       modify_dom (set_infoLabel "") ;;
       appendMessage "info" "Chat assistant is ready")). hb_go.
Qed.

Lemma hb_await_task K F c f q :
  is_create c = false →
  ends (hb K F) (hb K ((f, q) :: F)) (await c (RTask f q)).
Proof.
  intros Hc s (H1 & H2 & H3 & H4). rewrite await_spec. unfold hb.
  cbn [ui awaited trace]. rewrite turns_cons_other by done. split_and!; try done.
  - intros p h [[= _ <-]|Hin]%elem_of_cons; [done|exact (H3 p h Hin)].
  - intros x. rewrite task_frames_awaited. cbn [task_frame].
    intros [->|Hin]%elem_of_cons; [by left|right; auto].
Qed.

Lemma hb_await_create K F q u :
  K ≤ maxMessages →
  ends (λ s, hb K F s ∧ ui s = u) (hb K ((GenCreate, q) :: F))
    (await (XCreate (chatHistory u)) (RTask GenCreate q)).
Proof.
  intros HK s [(H1 & H2 & H3 & H4) <-]. rewrite await_spec. unfold hb.
  cbn [ui awaited trace]. rewrite turns_cons_other by done. split_and!; try done.
  - intros p h [[= _ ->]|Hin]%elem_of_cons; [lia|exact (H3 p h Hin)].
  - intros x. rewrite task_frames_awaited. cbn [task_frame].
    intros [->|Hin]%elem_of_cons; [by left|right; auto].
Qed.

Lemma post_settle K q o : K ≤ 5 → ends (hb K []) hist_inv (settle q o).
Proof.
  intros HK s H. apply (hist_of_hb K []); [by apply hb_settle|done|].
  by intros f p ?%elem_of_nil.
Qed.

Lemma post_await K c f q :
  K ≤ 5 → is_create c = false → (streaming f = true → K ≤ maxMessages) →
  ends (hb K []) hist_inv (await c (RTask f q)).
Proof.
  intros HK Hc Hf s H. apply (hist_of_hb K [(f, q)]); [by apply hb_await_task|done|].
  intros f' q' [= -> ->]%list_elem_of_singleton. done.
Qed.

Lemma post_finish K q : K ≤ 5 → ends (hb K []) hist_inv (asyncGenerate_finish q).
Proof.
  intros HK. unfold asyncGenerate_finish.
  apply ends_bind; [hb_go|intros _]. apply ends_bind; [hb_go|intros _].
  by apply post_settle.
Qed.

Lemma post_catch K q err :
  K ≤ 5 → ends (hb K []) hist_inv (asyncGenerate_catch q err).
Proof.
  intros HK. unfold asyncGenerate_catch. apply ends_bind; [hb_go|intros _].
  by apply post_await.
Qed.

Ltac post_go :=
  repeat lazymatch goal with
  | |- ends _ _ (await _ (RTask _ _)) => apply post_await; [lia|done|first [done|simpl; lia]]
  | |- ends _ _ (settle _ _) => apply post_settle; lia
  | |- ends _ _ (asyncGenerate_finish _) => apply post_finish; lia
  | |- ends _ _ (asyncGenerate_catch _ _) => apply post_catch; lia
  | |- ends _ _ (bind _ _) => apply ends_bind; [solve [hb_go]|intros ?]
  | |- ends _ _ (match ?x with _ => _ end) => destruct x
  end.

Lemma post_resume_task f q o :
  ends (hb (if streaming f then maxMessages else 5) []) hist_inv
    (resume_task f q o).
Proof.
  unfold resume_task, maxMessages.
  destruct f, o as [[]|]; cbn [streaming]; post_go.
  all: try (apply ends_seq with (Q := hb 5 []);
            [apply (hb_push_turn 4)|intros _; apply post_finish; lia]).
  all: try (apply ends_seq with (Q := hb 0 []);
            [apply hb_resetChatHistory|intros _; apply post_settle; lia]).
Qed.

Lemma post_asyncGenerate q :
  ends (hb 5 []) hist_inv (asyncGenerate q).
Proof.
  unfold asyncGenerate. apply ends_bind; [hb_go|intros _].
  apply ends_bind; [hb_go|intros u]. case_decide; [post_go|].
  apply ends_bind; [hb_go|intros _]. apply ends_bind; [hb_go|intros _].
  apply ends_bind; [hb_go|intros _]. apply ends_bind; [hb_go|intros _].
  apply ends_seq with (Q := hb 6 []); [apply hb_push_turn|intros _].
  apply ends_seq with (Q := hb maxMessages []); [apply hb_truncate|intros _].
  apply ends_get_ui. intros u' s Hs.
  apply (hist_of_hb maxMessages [(GenCreate, q)]); [by apply hb_await_create|..];
    unfold maxMessages; [lia|done].
Qed.

Lemma hist_pres {A} (m : proc A) s :
  (∀ K F, pres (hb K F) m) → hist_inv s → hist_inv (exec m s).
Proof.
  intros Hm Hs. pose proof Hs as [_ H2 _ H4].
  apply (hist_of_hb (length (chatHistory (ui s))) (task_frames s)).
  - by apply Hm, hb_of_hist.
  - done.
  - exact H4.
Qed.

Lemma post_of_pres {A} K (m : proc A) :
  K ≤ 5 → pres (hb K []) m → ends (hb K []) hist_inv m.
Proof.
  intros HK Hm s H. apply (hist_of_hb K []); [by apply Hm|done|].
  by intros f q ?%elem_of_nil.
Qed.

Lemma post_ret_after {A B} (P : Sys → Prop) (m : proc A) (b : B) :
  ends P hist_inv m → ends P hist_inv (m ;; ret b).
Proof. intros Hm s H. rewrite exec_bind. by apply Hm. Qed.

Lemma post_start_task n t : ends (hb 5 []) hist_inv (start_task n t).
Proof.
  unfold start_task. apply ends_bind; [hb_go|intros _]. destruct t as [| |[o|]].
  - apply ends_bind; [hb_go|intros q]. apply post_ret_after, post_asyncGenerate.
  - apply ends_bind; [hb_go|intros q]. apply post_ret_after.
    apply post_await; [lia|done|done].
  - apply ends_bind; [hb_go|intros q]. apply post_ret_after.
    apply post_settle. lia.
  - apply post_of_pres; [lia|hb_go].
Qed.

Section History.

Variable render : string → string.
Variable values_length : nat.

Lemma hb_resume_detached K F f r :
  pres (hb K F) (resume_detached values_length f r).
Proof.
  unfold resume_detached, updateLastMessage_write.
  destruct f, r as [[]|]; hb_go.
Qed.

Lemma hist_run_job N j rest s :
  microtasks s = j :: rest → store_inv N s → hist_inv s →
  hist_inv (exec (run_job values_length j) (set_microtasks (λ _, rest) s)).
Proof.
  intros Hj Hi Hh. set (s' := set_microtasks (λ _, rest) s).
  destruct (store_inv_pop N j rest s Hj Hi) as (Hi' & Hst & Hjok & Hf).
  fold s' in Hi', Hst, Hjok, Hf.
  assert (Hfr : task_frames s ≡ₚ (job_reactions j ≫= task_frame) ++ task_frames s').
  { unfold task_frames, all_reactions. rewrite Hj, bind_cons. simpl.
    rewrite !bind_app. solve_Permutation. }
  assert (Hh' : hist_inv s').
  { destruct Hh as [H1 H2 H3 H4]. constructor; try done.
    intros f q Hfq. apply (H4 f q). rewrite Hfr. apply elem_of_app. by right. }
  assert (Hb : ∀ K, length (chatHistory (ui s)) ≤ K → task_frames s' = [] → hb K [] s').
  { intros K HK Hnil. destruct Hh' as [H1 H2 H3 H4]. split_and!; try done.
    intros x. by rewrite Hnil. }
  destruct j as [[n t d|d|f q|f] o|q d]; cbn [run_job].
  - destruct o as [v|e].
    + rewrite exec_bind. apply hist_pres; [intros K F; hb_go|].
      apply post_start_task, Hb; [apply Hh|].
      simpl in Hjok. destruct Hjok as [Hd Hful]. destruct Hf as [Hf _].
      destruct (Hf n) as [Hn Hlt]; [by left|].
      apply (no_frames_at_start N s' n Hi' Hn). intros m ->. by eapply Hful.
    + apply hist_pres; [intros K F; hb_go|done].
  - apply hist_pres; [intros K F; hb_go|done].
  - destruct Hf as [_ Hf]. specialize (Hf (f, q)).
    apply post_resume_task, Hb; [|apply Hf; by left].
    destruct (streaming f) eqn:Hs; [|apply Hh].
    apply (hist_window s Hh f q); [|done]. rewrite Hfr. simpl. by left.
  - apply hist_pres; [intros K F; apply hb_resume_detached|done].
  - apply hist_pres; [intros K F; hb_go|done].
Qed.

Lemma hist_resolve p o s : hist_inv s → hist_inv (exec (resolve render p o) s).
Proof.
  intros Hh. unfold exec, resolve.
  destruct (store s !! p) as [c|]; [|done].
  destruct (pext c) as [x|]; [|done].
  destruct (ext_result render x o) as [o'|]; [|done].
  apply (hist_pres (settle p o')); [intros K F; apply hb_settle|done].
Qed.

Lemma hist_step a s :
  chain_inv s → hist_inv s → hist_inv (step render values_length a s).
Proof.
  intros [Hi _] Hh. destruct a; cbn [step].
  - apply hist_pres; [intros K F; hb_go|done].
  - apply hist_pres; [intros K F; apply hb_onGenerate|done].
  - apply hist_pres; [intros K F; apply hb_onReset|done].
  - apply hist_pres; [intros K F; apply hb_onDownload|done].
  - apply hist_pres; [intros K F; apply hb_pushTask|done].
  - destruct (microtasks s) as [|j rest] eqn:Hj; [done|].
    by apply (hist_run_job (pushed s)).
  - by apply hist_resolve.
Qed.

Lemma hist_create d : hist_inv (create d).
Proof.
  constructor; simpl.
  - done.
  - lia.
  - by intros p h ?%elem_of_nil.
  - by intros f q ?%elem_of_nil.
Qed.

Lemma hist_run l s :
  chain_inv s → hist_inv s → hist_inv (run render values_length l s).
Proof.
  revert s. induction l as [|a l IH]; intros s Hc Hh; [done|].
  simpl. apply IH; [by apply step_ok|by apply hist_step].
Qed.

End History.

(** ** Reset *)




Section Reset.

Variable render : string → string.
Variable values_length : nat.


(** C3, as the code has it: in every state of every run, chatHistory is a
    suffix of the turns pushed so far and has at most 5 turns - the 4 kept by
    the truncation and the assistant's answer pushed after it - and every
    request sent to the engine carries at most 4. *)
Theorem chatHistory_window (d : Dom) (l : list action) :
  let s := run render values_length l (create d) in
  chatHistory (ui s) `suffix_of` turns (trace s) ∧
  length (chatHistory (ui s)) ≤ maxMessages + 1 ∧
  (∀ p h, EvCall p (XCreate h) ∈ trace s → length h ≤ maxMessages) ∧
  (∀ f q, (f, q) ∈ task_frames s → streaming f = true →
          length (chatHistory (ui s)) ≤ maxMessages).
Proof.
  intros s.
  destruct (hist_run render values_length l _ (create_ok d) (hist_create d))
    as [H1 H2 H3 H4].
  by split_and!.
Qed.

End Reset.

(** ** The claims on concrete runs *)

Ltac in_trace :=
  vm_compute; repeat first [apply list_elem_of_here|apply list_elem_of_further].

Lemma pushTask_sequential_witness :
  ∃ o, EvSettle 0 o ∈ [EvSettle 0 (Ok VUnit); EvStart 0; EvPush 1 (TOther None);
                       EvPush 0 (TOther (Some (Ok VUnit)))].
Proof.
  apply (pushTask_sequential plain 30 empty_page two_tasks 0 []
           [EvSettle 0 (Ok VUnit); EvStart 0; EvPush 1 (TOther None);
            EvPush 0 (TOther (Some (Ok VUnit)))]).
  vm_compute. reflexivity.
Defined.

Lemma pushTask_rejection_stops_chain_witness :
  EvSettle 0 (Err "reset failed") ∈
    trace (run plain 30 failed_reset (create empty_page)) ∧
  ∀ l', EvStart 1 ∉ trace (run plain 30 (failed_reset ++ l') (create empty_page)).
Proof.
  assert (Hs : EvSettle 0 (Err "reset failed") ∈
                 trace (run plain 30 failed_reset (create empty_page))) by in_trace.
  split; [exact Hs|].
  apply (pushTask_rejection_stops_chain plain 30 empty_page failed_reset 0 1
           "reset failed" Hs). lia.
Defined.

(** C1 fails on the code: the reset task of this run is rejected, the
    generate task pushed after it is never started, whatever happens next. *)
Lemma pushTask_rejection_counterexample :
  let s := run plain 30 failed_reset (create empty_page) in
  EvSettle 0 (Err "reset failed") ∈ trace s ∧
  EvPush 1 TGenerate ∈ trace s ∧
  microtasks s = [] ∧
  ∀ l', EvStart 1 ∉ trace (run plain 30 l' s).
Proof.
  intros s. assert (Hs : EvSettle 0 (Err "reset failed") ∈ trace s).
  { in_trace. }
  split_and!; [done|in_trace|reflexivity|].
  intros l'.
  assert (Hc : chain_inv (run plain 30 l' s)).
  { apply run_ok, run_ok, create_ok. }
  destruct Hc as [Hi _].
  apply (rejected_blocks _ _ 0 1 "reset failed" Hi); [|lia].
  by apply run_trace.
Qed.

(** C3 fails on the code: after the third generation has completed,
    chatHistory holds five turns. *)
Lemma chatHistory_window_counterexample :
  let s := run plain 30 three_generations (create empty_page) in
  EvSettle 2 (Ok VUnit) ∈ trace s ∧
  microtasks s = [] ∧
  requestInProgress (ui s) = false ∧
  chatHistory (ui s) =
    [{| msg_role := assistant; content := "b" |};
     {| msg_role := user; content := "c" |};
     {| msg_role := assistant; content := "d" |};
     {| msg_role := user; content := "e" |};
     {| msg_role := assistant; content := "f" |}] ∧
  ¬ length (chatHistory (ui s)) ≤ 4.
Proof.
  intros s. split_and!.
  - in_trace.
  - reflexivity.
  - reflexivity.
  - reflexivity.
  - vm_compute. lia.
Qed.




